(** * Location resolution of the campus chat-bot action ([actions.py])

    A shallow embedding of [LocationStore] ([load], [list_titles],
    [_get_by_key], [resolve]), of [google_maps_search_url] and of
    [ActionSendLocation.run], followed by the properties of the resolution
    logic.

    Python values are modelled as the program observes them:
    - a [str] is the list of its Unicode code points;
    - the document returned by [yaml.safe_load] is a tree of scalars,
      sequences and mappings;
    - the dictionary [_alias_to_key] is a finite map;
    - a Python exception is an explicit [Raise] outcome. *)

From stdpp Require Import gmap list strings.
From Stdlib Require Import ZArith NArith Lia.

Local Open Scope N_scope.
Local Set Warnings "-register-all".

(** ** Text: [str] as a list of code points *)

Abbreviation pystr := (list N).

Module Utf8.

(** Decoder used to write the literals of the program as they stand in
    the source file, which is UTF-8. *)
Fixpoint decode (bs : list N) : pystr :=
  match bs with
  | [] => []
  | b0 :: r0 =>
      if b0 <? 0x80 then b0 :: decode r0
      else if b0 <? 0xE0 then
        match r0 with
        | b1 :: r1 =>
            N.lor (N.shiftl (N.land b0 0x1F) 6) (N.land b1 0x3F) :: decode r1
        | _ => []
        end
      else if b0 <? 0xF0 then
        match r0 with
        | b1 :: b2 :: r2 =>
            N.lor (N.shiftl (N.land b0 0x0F) 12)
              (N.lor (N.shiftl (N.land b1 0x3F) 6) (N.land b2 0x3F))
            :: decode r2
        | _ => []
        end
      else
        match r0 with
        | b1 :: b2 :: b3 :: r3 =>
            N.lor (N.shiftl (N.land b0 0x07) 18)
              (N.lor (N.shiftl (N.land b1 0x3F) 12)
                 (N.lor (N.shiftl (N.land b2 0x3F) 6) (N.land b3 0x3F)))
            :: decode r3
        | _ => []
        end
  end.

(** [str.encode("utf-8")] with the default [errors="strict"]: a lone
    surrogate cannot be encoded. *)
Definition encode_cp (c : N) : option (list N) :=
  if c <? 0x80 then Some [c]
  else if c <? 0x800 then
    Some [N.lor 0xC0 (N.shiftr c 6); N.lor 0x80 (N.land c 0x3F)]
  else if (0xD800 <=? c) && (c <=? 0xDFFF) then None
  else if c <? 0x10000 then
    Some [N.lor 0xE0 (N.shiftr c 12);
          N.lor 0x80 (N.land (N.shiftr c 6) 0x3F);
          N.lor 0x80 (N.land c 0x3F)]
  else if c <? 0x110000 then
    Some [N.lor 0xF0 (N.shiftr c 18);
          N.lor 0x80 (N.land (N.shiftr c 12) 0x3F);
          N.lor 0x80 (N.land (N.shiftr c 6) 0x3F);
          N.lor 0x80 (N.land c 0x3F)]
  else None.

Fixpoint encode (s : pystr) : option (list N) :=
  match s with
  | [] => Some []
  | c :: s' =>
      match encode_cp c, encode s' with
      | Some bs, Some bs' => Some (bs ++ bs')
      | _, _ => None
      end
  end.

End Utf8.

(** [py "..."] is the Python string written between the quotes. *)
Definition py (s : string) : pystr :=
  Utf8.decode (map Ascii.N_of_ascii (String.list_ascii_of_string s)).

(** [str.isspace] on one character; [str.strip()] and the regular
    expression class [\s] both use this set. *)
Definition isspace (c : N) : bool :=
  (0x09 <=? c) && (c <=? 0x0D) || (0x1C <=? c) && (c <=? 0x20)
  || (c =? 0x85) || (c =? 0xA0) || (c =? 0x1680)
  || (0x2000 <=? c) && (c <=? 0x200A)
  || (c =? 0x2028) || (c =? 0x2029) || (c =? 0x202F) || (c =? 0x205F)
  || (c =? 0x3000).

Fixpoint lstrip (s : pystr) : pystr :=
  match s with
  | [] => []
  | c :: s' => if isspace c then lstrip s' else s
  end.

Definition rstrip (s : pystr) : pystr := rev (lstrip (rev s)).

(** [s.strip()] *)
Definition strip (s : pystr) : pystr := rstrip (lstrip s).

(** Lower-case mapping. Each entry [(first, last, step, shift)] sends the
    code points [first, first + step, ..., last] to themselves plus
    [shift]. The table covers Basic Latin, the Latin-1 Supplement and the
    Cyrillic blocks (U+0400 to U+052F), the letters of the texts the
    program is written for; a code point of another block is left as it
    is. *)
Definition lower_table : list (N * N * N * N) :=
  [ (0x41, 0x5A, 1, 32); (0xC0, 0xD6, 1, 32); (0xD8, 0xDE, 1, 32);
    (0x400, 0x40F, 1, 80); (0x410, 0x42F, 1, 32);
    (0x460, 0x480, 2, 1); (0x48A, 0x4BE, 2, 1); (0x4C0, 0x4C0, 1, 15);
    (0x4C1, 0x4CD, 2, 1); (0x4D0, 0x52E, 2, 1) ].

Definition in_run (c : N) (r : N * N * N * N) : bool :=
  let '(first, last, step, _) := r in
  (first <=? c) && (c <=? last) && ((c - first) mod step =? 0).

Definition lower_cp (c : N) : N :=
  match find (in_run c) lower_table with
  | Some (_, _, _, shift) => c + shift
  | None => c
  end.

(** [s.lower()] *)
Definition lower (s : pystr) : pystr := map lower_cp s.

(** [p] is a prefix of [s] ([s.startswith(p)]). *)
Fixpoint startswith (p s : pystr) : bool :=
  match p, s with
  | [], _ => true
  | _ :: _, [] => false
  | a :: p', b :: s' => (a =? b) && startswith p' s'
  end.

(** [needle in hay] on strings. *)
Fixpoint contains (needle hay : pystr) : bool :=
  startswith needle hay
  || match hay with
     | [] => false
     | _ :: hay' => contains needle hay'
     end.

(** Truth value of a string: [bool(s)]. *)
Definition nonempty (s : pystr) : bool :=
  match s with [] => false | _ :: _ => true end.

(** Truth value of a string that may be [None]. *)
Definition given (o : option pystr) : bool :=
  match o with
  | Some s => nonempty s
  | None => false
  end.

(** [str.isdecimal] on one character, which is the class [\d] of [re] on
    [str] patterns ([\D] is its complement): the decimal digits of Unicode
    (version 14) come in runs of ten, listed here by their zero. *)
Definition decimal_zeros : list N :=
  [ 0x30; 0x660; 0x6F0; 0x7C0; 0x966; 0x9E6; 0xA66; 0xAE6; 0xB66; 0xBE6;
    0xC66; 0xCE6; 0xD66; 0xDE6; 0xE50; 0xED0; 0xF20; 0x1040; 0x1090;
    0x17E0; 0x1810; 0x1946; 0x19D0; 0x1A80; 0x1A90; 0x1B50; 0x1BB0;
    0x1C40; 0x1C50; 0xA620; 0xA8D0; 0xA900; 0xA9D0; 0xA9F0; 0xAA50;
    0xABF0; 0xFF10; 0x104A0; 0x10D30; 0x11066; 0x110F0; 0x11136; 0x111D0;
    0x112F0; 0x11450; 0x114D0; 0x11650; 0x116C0; 0x11730; 0x118E0;
    0x11950; 0x11C50; 0x11D50; 0x11DA0; 0x16A60; 0x16AC0; 0x16B50;
    0x1D7CE; 0x1D7D8; 0x1D7E2; 0x1D7EC; 0x1D7F6; 0x1E140; 0x1E2F0;
    0x1E950; 0x1FBF0 ].

Definition isdecimal (c : N) : bool :=
  existsb (fun z => (z <=? c) && (c <? z + 10)) decimal_zeros.

(** ** Regular expressions

    The fragment of [re] that the program uses, without anchors: character
    classes, concatenation, alternation, [?] and [*]. [re.search] reports
    the leftmost position at which some match starts; whether a match
    starts at a position does not depend on the order in which the
    backtracking engine tries the alternatives, so matching is decided with
    derivatives. *)

Module Re.

Inductive regex : Type :=
| Void                         (* matches nothing *)
| Eps                          (* the empty string *)
| Cls (p : N → bool)           (* one character of a class *)
| Cat (r1 r2 : regex)
| Alt (r1 r2 : regex)
| Star (r : regex).

(** [r?] *)
Definition Opt (r : regex) : regex := Alt r Eps.

(** One given character. *)
Definition Chr (c : N) : regex := Cls (N.eqb c).

(** A literal string. *)
Fixpoint Lit (s : pystr) : regex :=
  match s with
  | [] => Eps
  | c :: s' => Cat (Chr c) (Lit s')
  end.

(** The strings a regular expression matches in full. *)
Inductive lang : regex → pystr → Prop :=
| lang_eps : lang Eps []
| lang_cls p c : p c = true → lang (Cls p) [c]
| lang_cat r1 r2 s1 s2 : lang r1 s1 → lang r2 s2 → lang (Cat r1 r2) (s1 ++ s2)
| lang_alt_l r1 r2 s : lang r1 s → lang (Alt r1 r2) s
| lang_alt_r r1 r2 s : lang r2 s → lang (Alt r1 r2) s
| lang_star_nil r : lang (Star r) []
| lang_star_app r s1 s2 : lang r s1 → lang (Star r) s2 → lang (Star r) (s1 ++ s2).

Fixpoint nullable (r : regex) : bool :=
  match r with
  | Void => false
  | Eps => true
  | Cls _ => false
  | Cat r1 r2 => nullable r1 && nullable r2
  | Alt r1 r2 => nullable r1 || nullable r2
  | Star _ => true
  end.

Fixpoint deriv (c : N) (r : regex) : regex :=
  match r with
  | Void => Void
  | Eps => Void
  | Cls p => if p c then Eps else Void
  | Cat r1 r2 =>
      if nullable r1 then Alt (Cat (deriv c r1) r2) (deriv c r2)
      else Cat (deriv c r1) r2
  | Alt r1 r2 => Alt (deriv c r1) (deriv c r2)
  | Star r1 => Cat (deriv c r1) (Star r1)
  end.

(** [re.match(r, s)] succeeds: some prefix of [s] matches [r]. *)
Fixpoint match_prefix (r : regex) (s : pystr) : bool :=
  nullable r
  || match s with
     | [] => false
     | c :: s' => match_prefix (deriv c r) s'
     end.

(** [re.search(r, s)]: the text from the leftmost position at which a
    match starts, or [None]. *)
Fixpoint search (r : regex) (s : pystr) : option pystr :=
  if match_prefix r s then Some s
  else match s with
       | [] => None
       | _ :: s' => search r s'
       end.

End Re.

(** ** The YAML document

    What [yaml.safe_load] returns for the core schema. A float is kept as
    what the program can observe of it: its [str()] and its truth value. A
    mapping is the list of its items in insertion order; its keys are
    scalars, since a Python [dict] key is hashable. *)

Inductive scalar : Type :=
| SNone
| SBool (b : bool)
| SInt (z : Z)
| SFloat (shown : pystr) (nonzero : bool)
| SStr (s : pystr).

Inductive yaml : Type :=
| YScalar (v : scalar)
| YSeq (items : list yaml)
| YMap (items : list (scalar * yaml)).

Coercion YScalar : scalar >-> yaml.

Definition YStr (s : pystr) : yaml := YScalar (SStr s).

(** Python exceptions the program can run into. *)
Inductive exn : Type :=
| AttributeError
| TypeError
| UnicodeEncodeError.

Inductive result (A : Type) : Type :=
| Ok (a : A)
| Raise (e : exn).
Arguments Ok {A} a.
Arguments Raise {A} e.

#[global] Instance result_ret : MRet result := λ A a, Ok a.
#[global] Instance result_bind : MBind result := λ A B f m,
  match m with
  | Ok a => f a
  | Raise e => Raise e
  end.

(** A [for] loop whose body may raise: the state is threaded through the
    elements in order and the first exception ends the loop. *)
Fixpoint for_each {S A} (body : S → A → result S) (xs : list A) (st : S) : result S :=
  match xs with
  | [] => Ok st
  | x :: xs' => st' ← body st x; for_each body xs' st'
  end.

(** [bool(v)] *)
Definition truthy (v : yaml) : bool :=
  match v with
  | YScalar SNone => false
  | YScalar (SBool b) => b
  | YScalar (SInt z) => negb (z =? 0)%Z
  | YScalar (SFloat _ nz) => nz
  | YScalar (SStr s) => nonempty s
  | YSeq l => match l with [] => false | _ => true end
  | YMap m => match m with [] => false | _ => true end
  end.

(** [a or b] *)
Definition py_or (a b : yaml) : yaml := if truthy a then a else b.

(** [d.get(k)] on a dictionary, for a string key [k]. *)
Definition dict_get (m : list (scalar * yaml)) (k : pystr) : option yaml :=
  snd <$> find (fun kv => match kv.1 with
                          | SStr s => bool_decide (s = k)
                          | _ => false
                          end) m.

(** [v.get(k, dflt)]: only a mapping has the method. *)
Definition get (v : yaml) (k : pystr) (dflt : yaml) : result yaml :=
  match v with
  | YMap m => Ok (default dflt (dict_get m k))
  | _ => Raise AttributeError
  end.

(** The elements a [for] loop over [v] visits: the items of a sequence,
    the keys of a mapping, the characters of a string. Other scalars are
    not iterable. *)
Definition py_iter (v : yaml) : result (list yaml) :=
  match v with
  | YSeq l => Ok l
  | YMap m => Ok (map (fun kv => YScalar kv.1) m)
  | YScalar (SStr s) => Ok (map (fun c => YStr [c]) s)
  | YScalar _ => Raise TypeError
  end.

(** Decimal digits of an integer, as [str(int)] prints them. *)
Fixpoint uint_digits (u : Decimal.uint) : pystr :=
  match u with
  | Decimal.Nil => []
  | Decimal.D0 u' => 0x30 :: uint_digits u'
  | Decimal.D1 u' => 0x31 :: uint_digits u'
  | Decimal.D2 u' => 0x32 :: uint_digits u'
  | Decimal.D3 u' => 0x33 :: uint_digits u'
  | Decimal.D4 u' => 0x34 :: uint_digits u'
  | Decimal.D5 u' => 0x35 :: uint_digits u'
  | Decimal.D6 u' => 0x36 :: uint_digits u'
  | Decimal.D7 u' => 0x37 :: uint_digits u'
  | Decimal.D8 u' => 0x38 :: uint_digits u'
  | Decimal.D9 u' => 0x39 :: uint_digits u'
  end.

Definition str_of_int (z : Z) : pystr :=
  match Z.to_int z with
  | Decimal.Pos u => uint_digits u
  | Decimal.Neg u => 0x2D :: uint_digits u
  end.

Definition str_of_scalar (v : scalar) : pystr :=
  match v with
  | SNone => py "None"
  | SBool true => py "True"
  | SBool false => py "False"
  | SInt z => str_of_int z
  | SFloat shown _ => shown
  | SStr s => s
  end.

(** ** [urllib.parse.quote_plus] and the search link *)

(** The bytes [quote] never escapes: letters, digits and [_.-~]. *)
Definition always_safe (b : N) : bool :=
  (0x41 <=? b) && (b <=? 0x5A) || (0x61 <=? b) && (b <=? 0x7A)
  || (0x30 <=? b) && (b <=? 0x39)
  || (b =? 0x5F) || (b =? 0x2E) || (b =? 0x2D) || (b =? 0x7E).

Definition hex_digit (d : N) : N :=
  if d <? 10 then 0x30 + d else 0x41 + (d - 10).

(** One byte of the UTF-8 encoding: kept when safe, [+] for a space,
    [%XX] with upper-case hexadecimal digits otherwise. *)
Definition quote_byte (b : N) : pystr :=
  if always_safe b then [b]
  else if b =? 0x20 then [0x2B]
  else [0x25; hex_digit (b / 16); hex_digit (b mod 16)].

Definition quote_plus (s : pystr) : result pystr :=
  match Utf8.encode s with
  | Some bs => Ok (concat (map quote_byte bs))
  | None => Raise UnicodeEncodeError
  end.

Definition google_maps_search_url (query : pystr) : result pystr :=
  q ← quote_plus query; Ok (py "https://www.google.com/maps?q=" ++ q).

(** ** The location store *)

Record Place : Type := {
  key : pystr;
  title : pystr;
  query : pystr;
  aliases : list pystr;
  url : option pystr
}.

#[global] Instance Place_eq_dec : EqDecision Place.
Proof. solve_decision. Defined.

(** The two attributes of a [LocationStore] that [load] fills. The file
    named by [file_path] enters [load] as its argument. *)
Record LocationStore : Type := {
  _places : list Place;
  _alias_to_key : gmap pystr pystr
}.

(** The store as [__init__] leaves it and as [load] resets it. *)
Definition empty_store : LocationStore :=
  {| _places := []; _alias_to_key := ∅ |}.

Section Load.

(** [str()] of a sequence or of a mapping prints its elements with
    [repr]; that rendering is left open. *)
Variable container_str : yaml → pystr.

(** [str(v)] *)
Definition str_of (v : yaml) : pystr :=
  match v with
  | YScalar x => str_of_scalar x
  | _ => container_str v
  end.

(** The inner loop of [load] over the raw aliases of one entry: it
    collects the cleaned aliases and points each of them to [key]. *)
Definition clean_aliases (key : pystr) (elems : list yaml)
    (table : gmap pystr pystr) : list pystr * gmap pystr pystr :=
  fold_left
    (λ acc a,
       let a2 := lower (strip (str_of a)) in
       if nonempty a2 then (acc.1 ++ [a2], <[a2 := key]> acc.2) else acc)
    elems ([], table).

(** The body of the loop over the entries of [places]. *)
Definition load_item (st : LocationStore) (item : yaml) : result LocationStore :=
  k ← get item (py "key") (YStr []);
  let key := strip (str_of k) in
  ti ← get item (py "title") (YStr []);
  let title := strip (str_of ti) in
  q ← get item (py "query") (YStr []);
  let query := strip (str_of q) in
  u ← get item (py "url") (YStr []);
  let url := let u' := strip (str_of u) in
             if nonempty u' then Some u' else None in
  al ← get item (py "aliases") SNone;
  let aliases := py_or al (YSeq []) in
  if negb (nonempty key && nonempty title && nonempty query) then Ok st
  else
    elems ← py_iter aliases;
    let cleaned := clean_aliases key elems (_alias_to_key st) in
    Ok {| _places := _places st ++
                     [ {| key := key; title := title; query := query;
                          aliases := cleaned.1; url := url |} ];
          _alias_to_key := <[lower title := key]> cleaned.2 |}.

(** The entries the loop of [load] visits:
    [(yaml.safe_load(f) or {}).get("places") or []]. *)
Definition config_items (doc : yaml) : result (list yaml) :=
  let data := py_or doc (YMap []) in
  v ← get data (py "places") SNone;
  py_iter (py_or v (YSeq [])).

(** [LocationStore.load]. The argument is [None] when no file exists at
    [file_path], and otherwise the document [yaml.safe_load] returns. *)
Definition load (file : option yaml) : result LocationStore :=
  match file with
  | None => Ok empty_store
  | Some doc =>
      items ← config_items doc;
      for_each load_item items empty_store
  end.

End Load.

Definition list_titles (st : LocationStore) : list pystr :=
  map title (_places st).

Definition _get_by_key (st : LocationStore) (k : pystr) : option Place :=
  find (λ p, bool_decide (key p = k)) (_places st).

(** *** The patterns of [resolve]

    The literals that are not ASCII are taken code point by code point as
    the source file stores them. (They have the shape of Cyrillic words
    whose UTF-8 bytes were read as Mac OS Roman text: the building keyword,
    for instance, is eight code points, U+2013 U+00B1 U+2013 U+221E U+2013
    U+03C0 U+2014 U+00C4.) *)

Definition dorm_keyword : pystr := py "–¥–æ—Ç—É—É—Ä".
Definition building_keyword : pystr := py "–±–∞–π—Ä".
Definition institution_keyword : pystr := py "–º—É–∏—Å".

(** The test that opens the dormitory branch. *)
Definition mentions_dorm (t : pystr) : bool :=
  contains dorm_keyword t || contains (py "dorm") t || contains (py "dormitory") t.

(** [$] without the [MULTILINE] flag: the end of the text, or the place
    just before a newline that ends it. *)
Definition at_end (s : pystr) : bool :=
  match s with
  | [] => true
  | [c] => c =? 0x0A
  | _ => false
  end.

(** [(\D|$)] on the text that follows the digit. *)
Definition nondigit_or_end (s : pystr) : bool :=
  match s with
  | c :: _ => negb (isdecimal c)
  | [] => false
  end || at_end s.

(** [re.search(rf"(^|\D){n}(\D|$)", t)] for a one-character [n]. The flag
    [before] tells whether [(^|\D)] can match just before the current
    position: at the start of the text, or over a preceding non-digit. *)
Fixpoint bounded_digit_from (before : bool) (n : N) (t : pystr) : bool :=
  match t with
  | [] => false
  | c :: t' =>
      before && (c =? n) && nondigit_or_end t'
      || bounded_digit_from (negb (isdecimal c)) n t'
  end.

Definition bounded_digit (n : N) (t : pystr) : bool :=
  bounded_digit_from true n t.

(** The digits ["1"] to ["6"] in the order of the [for] loop. *)
Definition dorm_digits : list N := [0x31; 0x32; 0x33; 0x34; 0x35; 0x36].

(** The condition of the [if] inside the loop. *)
Definition dorm_digit_test (t : pystr) (n : N) : bool :=
  bounded_digit n t || contains [n] t.

(** The digit at which the dormitory branch returns, if it does. *)
Definition dorm_match (t : pystr) : option N :=
  if mentions_dorm t then find (dorm_digit_test t) dorm_digits else None.

(** [([1-5])\s*[-‚Äì]?\s*(—Ä|—Ä\.|–¥—É–≥–∞–∞—Ä)?\s*–±–∞–π—Ä] *)
Definition building_re : Re.regex :=
  Re.Cat (Re.Cls (λ c, (0x31 <=? c) && (c <=? 0x35)))
 (Re.Cat (Re.Star (Re.Cls isspace))
 (Re.Cat (Re.Opt (Re.Cls (λ c, bool_decide (c ∈ 0x2D :: py "‚Äì"))))
 (Re.Cat (Re.Star (Re.Cls isspace))
 (Re.Cat (Re.Opt (Re.Alt (Re.Lit (py "—Ä"))
                 (Re.Alt (Re.Cat (Re.Lit (py "—Ä")) (Re.Chr 0x2E))
                         (Re.Lit (py "–¥—É–≥–∞–∞—Ä")))))
 (Re.Cat (Re.Star (Re.Cls isspace))
         (Re.Lit building_keyword)))))).

(** [m.group(1)] of the building search: the match starts with the
    captured digit. *)
Definition building_match (t : pystr) : option N :=
  match Re.search building_re t with
  | Some (n :: _) => Some n
  | _ => None
  end.

Definition mentions_institution (t : pystr) : bool :=
  contains institution_keyword t || contains (py "muis") t || contains (py "num") t.

(** [LocationStore.resolve]; [text or ""] is [text] for a string. *)
Definition resolve (st : LocationStore) (text : pystr) : option Place :=
  let t := lower (strip text) in
  if negb (nonempty t) then None
  else
    (* 1) exact alias match *)
    let k := _alias_to_key st !! t in
    if given k then _get_by_key st (default [] k)
    else
      (* 2) dorm match first *)
      match dorm_match t with
      | Some n => _get_by_key st (py "num_dorm_" ++ [n])
      | None =>
          (* 3) building match *)
          match building_match t with
          | Some n => _get_by_key st (py "num_building_" ++ [n])
          | None =>
              (* 4) generic mention *)
              if mentions_institution t then _get_by_key st (py "num_main")
              else None
          end
      end.

(** ** The action *)

(** An entry of the entity list of the latest message, as [run] reads it:
    [ent.get("entity")] and [ent.get("value")]. *)
Record Entity : Type := {
  entity : option pystr;
  value : option pystr
}.

(** What [run] reads of the tracker: the slot [place], the entities and the
    text of the latest message, each of them a string or [None]. *)
Record Tracker : Type := {
  slot_place : option pystr;
  entities : list Entity;
  message_text : option pystr
}.

Inductive event : Type :=
| SlotSet (name : pystr) (value : pystr).

(** [sep.join(xs)] *)
Fixpoint join (sep : pystr) (xs : list pystr) : pystr :=
  match xs with
  | [] => []
  | [x] => x
  | x :: xs' => x ++ sep ++ join sep xs'
  end.

Definition list_commands : list pystr :=
  [ py "–±–∞–π—Ä—à–ª—É—É–¥"; py "–±–∞–π—Ä—à–∏–ª"; py "locations"; py "list";
    py "–∂–∞–≥—Å–∞–∞–ª—Ç" ].

Definition empty_list_message : pystr :=
  py "locations.yml —Ö–æ–æ—Å–æ–Ω –±–∞–π–Ω–∞ (—ç—Å–≤—ç–ª –æ–ª–¥—Å–æ–Ω–≥“Ø–π).".

Definition list_message (titles : list pystr) : pystr :=
  [0xF8FF] ++ py "üìç –ë–∞–π—Ä—à–ª—ã–Ω –∂–∞–≥—Å–∞–∞–ª—Ç:" ++ [0xA] ++ py "- "
  ++ join ([0xA] ++ py "- ") titles.

Definition help_message : pystr :=
  py "–Ø–º–∞—Ä –±–∞–π—Ä—à–∏–ª —Ö—ç—Ä—ç–≥—Ç—ç–π –≤—ç?" ++ [0xA] ++ py "–ñ–∏—à—ç—ç: ‚Äú–ú–£–ò–°, 2-—Ä –±–∞–π—Ä‚Äù, ‚Äú4-—Ä –¥–æ—Ç—É—É—Ä –±–∞–π—Ä‚Äù, —ç—Å–≤—ç–ª ‚Äú–±–∞–π—Ä—à–ª—É—É–¥‚Äù.".

Definition location_message (title url : pystr) : pystr :=
  [0xF8FF] ++ py "üìç " ++ title ++ [0xA] ++ [0xF8FF] ++ py "üó∫Ô∏è " ++ url.

(** The text [run] settles on: the slot, else the value of the first
    entity named [place], else the text of the message. *)
Definition candidate_text (tr : Tracker) : pystr :=
  (* 1) slot *)
  let place_text := slot_place tr in
  (* 2) entity *)
  let place_text :=
    if given place_text then place_text
    else match find (λ ent, bool_decide (entity ent = Some (py "place"))) (entities tr) with
         | Some ent => value ent
         | None => place_text
         end in
  (* 3) full message *)
  if given place_text then default [] place_text
  else default [] (message_text tr).

(** [ActionSendLocation.run] against the store [st]: the messages handed
    to the dispatcher and the events returned. *)
Definition run (st : LocationStore) (tr : Tracker) : result (list pystr * list event) :=
  let place_text := candidate_text tr in
  let normalized := lower (strip place_text) in
  if bool_decide (normalized ∈ list_commands) then
    let titles := list_titles st in
    match titles with
    | [] => Ok ([empty_list_message], [])
    | _ => Ok ([list_message titles], [])
    end
  else
    match resolve st place_text with
    | None => Ok ([help_message], [])
    | Some place =>
        u ← (if given (url place) then Ok (default [] (url place))
             else google_maps_search_url (query place));
        Ok ([location_message (title place) u], [SlotSet (py "place") (title place)])
    end.

(** ** Notions used to state the properties *)

(** The strings under which a place is entered in the alias table: its
    cleaned aliases, then its title in lower case. *)
Definition registered (p : Place) : list pystr :=
  aliases p ++ [lower (title p)].

(** The store after the loop body has kept the place [p]. *)
Definition add_place (p : Place) (st : LocationStore) : LocationStore :=
  {| _places := _places st ++ [p];
     _alias_to_key := foldl (λ m s, <[s := key p]> m) (_alias_to_key st) (registered p) |}.

Section Entries.

Variable container_str : yaml → pystr.

(** The record one entry of the configuration stands for: [Ok None]
    when the entry is skipped, [Raise] when reading it fails. *)
Definition entry_place (item : yaml) : result (option Place) :=
  k ← get item (py "key") (YStr []);
  ti ← get item (py "title") (YStr []);
  q ← get item (py "query") (YStr []);
  u ← get item (py "url") (YStr []);
  al ← get item (py "aliases") SNone;
  let key := strip (str_of container_str k) in
  let title := strip (str_of container_str ti) in
  let query := strip (str_of container_str q) in
  let url := strip (str_of container_str u) in
  if nonempty key && nonempty title && nonempty query then
    elems ← py_iter (py_or al (YSeq []));
    Ok (Some {| key := key; title := title; query := query;
                aliases := filter (λ a, nonempty a = true)
                             (map (λ a, lower (strip (str_of container_str a))) elems);
                url := if nonempty url then Some url else None |})
  else Ok None.

(** The places kept from a list of entries, when none of them raises. *)
Fixpoint kept_places (items : list yaml) : result (list Place) :=
  match items with
  | [] => Ok []
  | item :: items' =>
      o ← entry_place item;
      ps ← kept_places items';
      Ok (match o with Some p => p :: ps | None => ps end)
  end.

End Entries.

(** A place as [load] builds them. *)
Record loaded_place (p : Place) : Prop := {
  lp_key : key p ≠ [];
  lp_title : title p ≠ [];
  lp_query : query p ≠ [];
  lp_title_stripped : strip (title p) = title p;
  lp_aliases : Forall (λ a, a ≠ [] ∧ lower (strip a) = a) (aliases p);
  lp_url : url p ≠ Some []
}.

(** The cascade of [resolve], one strategy per step. A strategy answers
    [None] when it does not match and [Some r] when it does, [r] being
    what [resolve] then returns. *)
Definition strategy : Type := LocationStore → pystr → option (option Place).

Definition alias_strategy : strategy := λ st t,
  let k := _alias_to_key st !! t in
  if given k then Some (_get_by_key st (default [] k)) else None.

Definition dorm_strategy : strategy := λ st t,
  (λ n, _get_by_key st (py "num_dorm_" ++ [n])) <$> dorm_match t.

Definition building_strategy : strategy := λ st t,
  (λ n, _get_by_key st (py "num_building_" ++ [n])) <$> building_match t.

Definition institution_strategy : strategy := λ st t,
  if mentions_institution t then Some (_get_by_key st (py "num_main")) else None.

Definition cascade : list strategy :=
  [alias_strategy; dorm_strategy; building_strategy; institution_strategy].

(** The answer of the first strategy that matches; none when none does. *)
Fixpoint first_match (ss : list strategy) (st : LocationStore) (t : pystr) : option Place :=
  match ss with
  | [] => None
  | s :: ss' =>
      match s st t with
      | Some r => r
      | None => first_match ss' st t
      end
  end.

(** [text] is [a] up to letter case and surrounding white space. *)
Definition same_modulo_case_and_blanks (text a : pystr) : Prop :=
  ∃ l a' r, text = l ++ a' ++ r
            ∧ Forall (λ c, isspace c = true) l
            ∧ Forall (λ c, isspace c = true) r
            ∧ lower a' = lower a.

(** A rendering of containers to run the examples with; none of them
    applies [str()] to a sequence or to a mapping. *)
Definition plain : yaml → pystr := λ _, [].

(** A code point is changed by [lower] when some entry of the table
    covers it. *)
Definition cased_upper (c : N) : bool := existsb (in_run c) lower_table.

(** What [load] guarantees of the store it returns. *)
Record store_ok (st : LocationStore) : Prop := {
  ok_places : Forall loaded_place (_places st);
  ok_target : ∀ s k, _alias_to_key st !! s = Some k →
                ∃ p, p ∈ _places st ∧ key p = k ∧ s ∈ registered p;
  ok_registered : ∀ p s, p ∈ _places st → s ∈ registered p →
                    is_Some (_alias_to_key st !! s)
}.

(** The store after the loop has kept the places [ps], in that order. *)
Definition add_places (ps : list Place) (st : LocationStore) : LocationStore :=
  foldl (λ st p, add_place p st) st ps.

(** Value of a hexadecimal digit, to read a [%XX] escape back. *)
Definition hex_value (h : N) : N :=
  if (0x30 <=? h) && (h <=? 0x39) then h - 0x30 else h - 0x41 + 10.

(** ** Configurations of the examples *)

Definition ystr (s : string) : yaml := YStr (py s).

Definition ymap (fields : list (string * yaml)) : yaml :=
  YMap (map (λ kv, (SStr (py kv.1), kv.2)) fields).

(** Two dormitories. *)
Definition dorms : yaml :=
  ymap [ ("places", YSeq
    [ ymap [ ("key", ystr "num_dorm_1"); ("title", ystr "Dormitory 1");
             ("query", ystr "NUM dormitory 1 Ulaanbaatar") ];
      ymap [ ("key", ystr "num_dorm_4"); ("title", ystr "Dormitory 4");
             ("query", ystr "NUM dormitory 4 Ulaanbaatar");
             ("url", ystr "https://maps.app.goo.gl/dorm4") ] ]) ].

Definition dorm_1 : Place :=
  {| key := py "num_dorm_1"; title := py "Dormitory 1";
     query := py "NUM dormitory 1 Ulaanbaatar"; aliases := []; url := None |}.

Definition dorm_4 : Place :=
  {| key := py "num_dorm_4"; title := py "Dormitory 4";
     query := py "NUM dormitory 4 Ulaanbaatar"; aliases := [];
     url := Some (py "https://maps.app.goo.gl/dorm4") |}.

(** Two libraries that share the alias [lib]. *)
Definition libraries : yaml :=
  ymap [ ("places", YSeq
    [ ymap [ ("key", ystr "central_library"); ("title", ystr "Central Library");
             ("query", ystr "NUM central library");
             ("aliases", YSeq [ystr "lib"; ystr "Main Lib"]) ];
      ymap [ ("key", ystr "law_library"); ("title", ystr "Law Library");
             ("query", ystr "NUM law library");
             ("aliases", YSeq [ystr " LIB "]) ] ]) ].

Definition central_library : Place :=
  {| key := py "central_library"; title := py "Central Library";
     query := py "NUM central library"; aliases := [py "lib"; py "main lib"];
     url := None |}.

Definition law_library : Place :=
  {| key := py "law_library"; title := py "Law Library";
     query := py "NUM law library"; aliases := [py "lib"]; url := None |}.

(** The second building, titled and queried in Mongolian. *)
Definition campus : yaml :=
  ymap [ ("places", YSeq
    [ ymap [ ("key", ystr "num_main"); ("title", ystr "МУИС");
             ("query", ystr "МУИС Улаанбаатар") ];
      ymap [ ("key", ystr "num_building_2"); ("title", ystr "МУИС 2 байр");
             ("query", ystr "МУИС 2-р байр Улаанбаатар") ] ]) ].

Definition building_2 : Place :=
  {| key := py "num_building_2"; title := py "МУИС 2 байр";
     query := py "МУИС 2-р байр Улаанбаатар"; aliases := []; url := None |}.

(** The store [load] builds from a configuration of the examples. *)
Definition store_of (doc : yaml) : LocationStore :=
  match load plain (Some doc) with
  | Ok st => st
  | Raise _ => empty_store
  end.

(** ** Notions used in the further properties *)

(** The document [places: <items>]. *)
Definition places_doc (items : list yaml) : yaml :=
  YMap [(SStr (py "places"), YSeq items)].

(** A value that a [for] loop accepts. *)
Definition iterable (v : yaml) : bool :=
  match v with
  | YSeq _ | YMap _ | YScalar (SStr _) => true
  | YScalar _ => false
  end.

(** [str(m.get(name, "")).strip()] on the dictionary [m]. *)
Definition field (container_str : yaml → pystr)
    (m : list (scalar * yaml)) (name : pystr) : pystr :=
  strip (str_of container_str (default (YStr []) (dict_get m name))).

(** An entry [load] reads without an exception: a mapping whose [aliases],
    when the entry is kept, are missing, falsy or iterable. *)
Definition readable (container_str : yaml → pystr) (item : yaml) : Prop :=
  ∃ m, item = YMap m
       ∧ (field container_str m (py "key") ≠ []
          → field container_str m (py "title") ≠ []
          → field container_str m (py "query") ≠ []
          → ∀ v, dict_get m (py "aliases") = Some v → truthy v = true →
                 iterable v = true).

(** Two entries with the same key. *)
Definition twins : yaml :=
  ymap [ ("places", YSeq
    [ ymap [ ("key", ystr "library"); ("title", ystr "Old Library");
             ("query", ystr "NUM old library") ];
      ymap [ ("key", ystr "library"); ("title", ystr "New Library");
             ("query", ystr "NUM new library"); ("aliases", YSeq [ystr "new lib"]) ] ]) ].

Definition old_library : Place :=
  {| key := py "library"; title := py "Old Library";
     query := py "NUM old library"; aliases := []; url := None |}.

Definition new_library : Place :=
  {| key := py "library"; title := py "New Library";
     query := py "NUM new library"; aliases := [py "new lib"]; url := None |}.

(** [P] holds of the [fuel] code points from [c] on. *)
Fixpoint all_from (fuel : nat) (c : N) (P : N → bool) : bool :=
  match fuel with
  | O => true
  | S fuel' => if P c then all_from fuel' (N.succ c) P else false
  end.

(** The shape of the UTF-8 form of a code point: its bytes, the range of
    the first one and the code point they spell. *)
Definition utf8_shape (c : N) : bool :=
  match Utf8.encode_cp c with
  | None => true
  | Some [b0] => (b0 <? 0x80) && (b0 =? c)
  | Some [b0; b1] =>
      negb (b0 <? 0x80) && (b0 <? 0xE0) && (b0 <? 256) && (b1 <? 256)
      && (N.lor (N.shiftl (N.land b0 0x1F) 6) (N.land b1 0x3F) =? c)
  | Some [b0; b1; b2] =>
      negb (b0 <? 0x80) && negb (b0 <? 0xE0) && (b0 <? 0xF0)
      && (b0 <? 256) && (b1 <? 256) && (b2 <? 256)
      && (N.lor (N.shiftl (N.land b0 0x0F) 12)
            (N.lor (N.shiftl (N.land b1 0x3F) 6) (N.land b2 0x3F)) =? c)
  | Some [b0; b1; b2; b3] =>
      negb (b0 <? 0x80) && negb (b0 <? 0xE0) && negb (b0 <? 0xF0)
      && (b0 <? 256) && (b1 <? 256) && (b2 <? 256) && (b3 <? 256)
      && (N.lor (N.shiftl (N.land b0 0x07) 18)
            (N.lor (N.shiftl (N.land b1 0x3F) 12)
               (N.lor (N.shiftl (N.land b2 0x3F) 6) (N.land b3 0x3F))) =? c)
  | Some _ => false
  end.

(** Reading a quoted text back into bytes: [%XX] is the byte [XX], [+] is
    a space, any other character is itself. *)
Fixpoint unquote (q : pystr) : list N :=
  match q with
  | [] => []
  | c :: r =>
      if c =? 0x25 then
        match r with
        | h :: l :: r' => 16 * hex_value h + hex_value l :: unquote r'
        | _ => []
        end
      else if c =? 0x2B then 0x20 :: unquote r
      else c :: unquote r
  end.

(** The characters of a link: the unreserved ones, [+] and [%] of the
    quoted query, and the punctuation of the address. *)
Definition url_char (c : N) : bool :=
  always_safe c || bool_decide (c ∈ py "+%:/?=").

(** * Properties *)

(** ** The model against the libraries

    Values of [str.lower], [str.strip], [re.search] and [quote_plus] on
    sample inputs, as the Python library computes them. *)

Example dorm_keyword_code_points :
  dorm_keyword = [0x2013; 0xA5; 0x2013; 0xE6; 0x2014; 0xC7; 0x2014; 0xC9; 0x2014; 0xC9; 0x2014; 0xC4].
Proof. reflexivity. Qed.

Example building_keyword_code_points :
  building_keyword = [0x2013; 0xB1; 0x2013; 0x221E; 0x2013; 0x3C0; 0x2014; 0xC4].
Proof. reflexivity. Qed.

Example institution_keyword_code_points :
  institution_keyword = [0x2013; 0xBA; 0x2014; 0xC9; 0x2013; 0x220F; 0x2014; 0xC5].
Proof. reflexivity. Qed.

Example lower_latin1_example : lower (py "ÀÉÎÕÜ×Þß") = py "àéîõü×þß".
Proof. reflexivity. Qed.

Example lower_cyrillic_example : lower (py "ЁЙҮӨӀМУИС") = py "ёйүөӏмуис".
Proof. reflexivity. Qed.

Example normal_form_example :
  lower (strip ([0x20; 0x09; 0xA0] ++ py "МУИС  Dorm " ++ [0x0A; 0x2003]))
  = py "муис  dorm".
Proof. reflexivity. Qed.

Example str_of_int_example :
  map str_of_int [0; 7; -120; 2024]%Z = [py "0"; py "7"; py "-120"; py "2024"].
Proof. reflexivity. Qed.

Example quote_plus_example :
  quote_plus (py "МУИС 2-р байр")
  = Ok (py "%D0%9C%D0%A3%D0%98%D0%A1+2-%D1%80+%D0%B1%D0%B0%D0%B9%D1%80").
Proof. reflexivity. Qed.

Example quote_plus_reserved_example :
  quote_plus (py "a b~c_d.e-f/g?h=i&j+k%")
  = Ok (py "a+b~c_d.e-f%2Fg%3Fh%3Di%26j%2Bk%25").
Proof. reflexivity. Qed.

Example bounded_digit_examples :
  map (bounded_digit 0x31)
    [ py "a1b";
      py "11";
      py "21";
      py "1";
      py "x1" ++ [0xA];
      py "12";
      py "x1";
      py "1" ++ [0xA] ++ [0xA];
      py "٣1٣";
      py "" ]
  = [ true; false; false; true; true; false; true; true; false; false ].
Proof. reflexivity. Qed.

Example building_match_examples :
  map building_match
    [ py "2-—Ä –±–∞–π—Ä";
      py "7 3 Ä –¥—É–≥–∞–∞—Ä  –±–∞–π—Ä x";
      py "3—Ä.–±–∞–π—Ä";
      py "12–±–∞–π—Ä";
      py "2-—Ä –±–∞–π";
      py "6–±–∞–π—Ä 1 –±–∞–π—Ä";
      py "2--–±–∞–π—Ä";
      py "2 —Ä —Ä –±–∞–π—Ä";
      py "2‚–±–∞–π—Ä";
      py "4ì  —Ä. –±–∞–π—Ä" ]
  = [ Some 0x32;
      Some 0x33;
      Some 0x33;
      Some 0x32;
      None;
      Some 0x31;
      None;
      None;
      Some 0x32;
      Some 0x34 ].
Proof. by vm_compute. Qed.

(** ** Text *)

Lemma forallb_below (P : N → bool) (n : nat) :
  forallb P (map N.of_nat (seq 0 n)) = true →
  ∀ c, c < N.of_nat n → P c = true.
Proof.
  intros H c Hc. rewrite forallb_forall in H. apply H.
  apply in_map_iff. exists (N.to_nat c). split; [lia|].
  apply in_seq. lia.
Qed.

Lemma lower_cp_fixed c : cased_upper c = false → lower_cp c = c.
Proof.
  unfold cased_upper, lower_cp. intros H.
  destruct (find (in_run c) lower_table) as [[[[a b] st] d]|] eqn:E; [|done].
  apply find_some in E as [Hin Hrun].
  assert (existsb (in_run c) lower_table = true) by (apply existsb_exists; eauto).
  congruence.
Qed.

Lemma cased_upper_high c : 0x52F ≤ c → cased_upper c = false.
Proof.
  intros H. unfold cased_upper.
  apply not_true_is_false. intros E. apply existsb_exists in E as (r & Hin & Hr).
  assert (Hb : forallb (λ r, r.1.1.2 <? 0x52F) lower_table = true) by (by vm_compute).
  rewrite forallb_forall in Hb. specialize (Hb r Hin).
  destruct r as [[[a b] st] d]. simpl in *.
  apply N.ltb_lt in Hb.
  apply andb_true_iff in Hr as [Hr _]. apply andb_true_iff in Hr as [_ Hr].
  apply N.leb_le in Hr. lia.
Qed.

(** Whatever holds of the code points below U+052F and of those [lower]
    leaves alone holds of all of them. *)
Lemma by_table (P : N → bool) :
  forallb P (map N.of_nat (seq 0 0x52F)) = true →
  (∀ c, 0x52F ≤ c → lower_cp c = c → P c = true) →
  ∀ c, P c = true.
Proof.
  intros Hlow Hhigh c. destruct (N.lt_ge_cases c 0x52F) as [Hc|Hc].
  - apply (forallb_below _ _ Hlow). lia.
  - apply Hhigh; [done|]. by apply lower_cp_fixed, cased_upper_high.
Qed.

Lemma lower_cp_not_upper c : cased_upper (lower_cp c) = false.
Proof.
  apply negb_true_iff. revert c. apply (by_table (λ c, negb (cased_upper (lower_cp c)))).
  - by vm_compute.
  - intros c Hc ->. apply negb_true_iff. by apply cased_upper_high.
Qed.

Lemma lower_cp_idem c : lower_cp (lower_cp c) = lower_cp c.
Proof. apply lower_cp_fixed, lower_cp_not_upper. Qed.

Lemma isspace_lower_cp c : isspace (lower_cp c) = isspace c.
Proof.
  apply Bool.eqb_prop. revert c.
  apply (by_table (λ c, Bool.eqb (isspace (lower_cp c)) (isspace c))).
  - by vm_compute.
  - intros c _ ->. apply Bool.eqb_reflx.
Qed.

Lemma lower_idem s : lower (lower s) = lower s.
Proof.
  unfold lower. rewrite map_map. apply map_ext. intros c. apply lower_cp_idem.
Qed.

Lemma lower_app s1 s2 : lower (s1 ++ s2) = lower s1 ++ lower s2.
Proof. apply map_app. Qed.

Lemma lower_nil_inv s : lower s = [] → s = [].
Proof. by destruct s. Qed.

Lemma nonempty_true s : nonempty s = true ↔ s ≠ [].
Proof. by destruct s. Qed.

Lemma nonempty_lower s : nonempty (lower s) = nonempty s.
Proof. by destruct s. Qed.

(** *** [strip] *)

Lemma lstrip_lower s : lstrip (lower s) = lower (lstrip s).
Proof.
  induction s as [|c s IH]; [done|]. simpl.
  rewrite isspace_lower_cp. by destruct (isspace c).
Qed.

Lemma rstrip_lower s : rstrip (lower s) = lower (rstrip s).
Proof.
  unfold rstrip. change (rev (lower s)) with (rev (map lower_cp s)).
  rewrite <- map_rev. change (map lower_cp (rev s)) with (lower (rev s)).
  rewrite lstrip_lower. unfold lower. by rewrite map_rev.
Qed.

Lemma strip_lower s : strip (lower s) = lower (strip s).
Proof. unfold strip. by rewrite lstrip_lower, rstrip_lower. Qed.

Lemma lstrip_idem s : lstrip (lstrip s) = lstrip s.
Proof.
  induction s as [|c s IH]; [done|]. simpl.
  destruct (isspace c) eqn:E; [done|]. simpl. by rewrite E.
Qed.

Lemma lstrip_spaces l s :
  Forall (λ c, isspace c = true) l → lstrip (l ++ s) = lstrip s.
Proof. induction 1 as [|c l Hc _ IH]; [done|]. simpl. by rewrite Hc. Qed.

Lemma lstrip_all_spaces l : Forall (λ c, isspace c = true) l → lstrip l = [].
Proof. intros H. rewrite <- (app_nil_r l). by rewrite lstrip_spaces. Qed.

Lemma lstrip_snoc s c :
  lstrip (s ++ [c]) =
  match lstrip s with
  | [] => if isspace c then [] else [c]
  | r => r ++ [c]
  end.
Proof.
  induction s as [|a s IH]; simpl; [done|].
  by destruct (isspace a).
Qed.

(** [rstrip] seen from the front of the text. *)
Lemma rstrip_cons c s :
  rstrip (c :: s) =
  match rstrip s with
  | [] => if isspace c then [] else [c]
  | r => c :: r
  end.
Proof.
  unfold rstrip. simpl. rewrite lstrip_snoc.
  destruct (lstrip (rev s)) as [|a r]; simpl.
  - by destruct (isspace c).
  - rewrite rev_app_distr. simpl.
    destruct (rev r ++ [a]) eqn:E; [by destruct (rev r)|done].
Qed.

Lemma rstrip_cons_nonspace c s :
  isspace c = false → rstrip (c :: s) = c :: rstrip s.
Proof. intros H. rewrite rstrip_cons, H. by destruct (rstrip s). Qed.

Lemma rstrip_spaces s r :
  Forall (λ c, isspace c = true) r → rstrip (s ++ r) = rstrip s.
Proof.
  intros H. unfold rstrip. rewrite rev_app_distr, lstrip_spaces; [done|].
  apply Forall_forall. intros c Hc. rewrite Forall_forall in H.
  apply H. apply list_elem_of_In. apply in_rev. by apply list_elem_of_In.
Qed.

Lemma rstrip_idem s : rstrip (rstrip s) = rstrip s.
Proof. unfold rstrip. by rewrite rev_involutive, lstrip_idem. Qed.

(** After [lstrip] the text is empty or starts with a character that is
    not white space, and [rstrip] keeps that character. *)
Lemma lstrip_rstrip_lstrip s : lstrip (rstrip (lstrip s)) = rstrip (lstrip s).
Proof.
  induction s as [|c s IH]; [done|]. simpl.
  destruct (isspace c) eqn:E; [done|].
  rewrite rstrip_cons_nonspace by done. simpl. by rewrite E.
Qed.

Lemma strip_idem s : strip (strip s) = strip s.
Proof. unfold strip. by rewrite lstrip_rstrip_lstrip, rstrip_idem. Qed.

Lemma strip_spaces_around l s r :
  Forall (λ c, isspace c = true) l → Forall (λ c, isspace c = true) r →
  strip (l ++ s ++ r) = strip s.
Proof.
  intros Hl Hr. unfold strip. rewrite lstrip_spaces by done.
  induction s as [|c s IH]; simpl.
  - by rewrite lstrip_all_spaces.
  - destruct (isspace c); [done|].
    by rewrite (app_comm_cons s r c), rstrip_spaces.
Qed.

Lemma strip_all_spaces s : Forall (λ c, isspace c = true) s → strip s = [].
Proof. intros H. unfold strip. by rewrite lstrip_all_spaces. Qed.

(** The normal form [resolve] and [load] work with. *)
Lemma normal_form_idem s : lower (strip (lower (strip s))) = lower (strip s).
Proof. by rewrite strip_lower, strip_idem, lower_idem. Qed.

Lemma normal_form_variant text a :
  same_modulo_case_and_blanks text a →
  lower (strip text) = lower (strip a).
Proof.
  intros (l & a' & r & -> & Hl & Hr & Ha).
  rewrite strip_spaces_around by done.
  by rewrite <- !strip_lower, Ha.
Qed.

Lemma lstrip_keeps l c s :
  isspace c = false → lstrip (l ++ c :: s) = lstrip l ++ c :: s.
Proof.
  intros Hc. induction l as [|a l IH]; simpl; [by rewrite Hc|].
  by destruct (isspace a).
Qed.

Lemma rstrip_keeps l c s :
  isspace c = false → rstrip (l ++ c :: s) = l ++ c :: rstrip s.
Proof.
  intros Hc. induction l as [|a l IH]; simpl.
  - by apply rstrip_cons_nonspace.
  - rewrite rstrip_cons, IH. by destruct l.
Qed.

(** *** Substrings *)

Lemma startswith_spec p s : startswith p s = true ↔ ∃ b, s = p ++ b.
Proof.
  revert s. induction p as [|a p IH]; intros s; simpl.
  - split; eauto.
  - destruct s as [|b s]; [split; [done|by intros [? ?]]|].
    rewrite andb_true_iff, N.eqb_eq, IH. split.
    + intros [-> [r ->]]. eauto.
    + intros [r [= -> ->]]. eauto.
Qed.

Lemma contains_spec p s : contains p s = true ↔ ∃ a b, s = a ++ p ++ b.
Proof.
  induction s as [|c s IH]; simpl; rewrite orb_true_iff, startswith_spec.
  - split.
    + intros [[b ->]|?]; [by exists [], b|done].
    + intros (a & b & H). left. symmetry in H.
      apply app_eq_nil in H as [-> H]. eauto.
  - rewrite IH. split.
    + intros [[b ->]|(a & b & ->)]; [by exists [], b|by exists (c :: a), b].
    + intros ([|a0 a] & b & H); simpl in H.
      * left. eauto.
      * right. injection H as -> ->. eauto.
Qed.

Lemma contains_single n s : contains [n] s = true ↔ n ∈ s.
Proof.
  rewrite contains_spec. split.
  - intros (a & b & ->). set_solver.
  - intros (a & b & ->)%list_elem_of_split. by exists a, b.
Qed.

Lemma contains_elem p s c : contains p s = true → c ∈ p → c ∈ s.
Proof. intros (a & b & ->)%contains_spec H. set_solver. Qed.

Lemma contains_lower p s :
  contains p s = true → contains (lower p) (lower s) = true.
Proof.
  intros (a & b & ->)%contains_spec. apply contains_spec.
  exists (lower a), (lower b). by rewrite !lower_app.
Qed.

(** Stripping does not cut into an occurrence of a word without white
    space. *)
Lemma contains_strip p s :
  Forall (λ c, isspace c = false) p →
  contains p s = true → contains p (strip s) = true.
Proof.
  intros Hp (a & b & ->)%contains_spec. apply contains_spec.
  destruct (decide (p = [])) as [->|Hne]; [by exists [], (strip (a ++ b))|].
  destruct (exists_last Hne) as (p0 & d & Hpd).
  assert (Hd : isspace d = false).
  { rewrite Hpd in Hp. apply Forall_app in Hp as [_ Hp]. by inversion Hp. }
  destruct p as [|c p1]; [done|].
  assert (Hc : isspace c = false) by (by inversion Hp).
  exists (lstrip a), (rstrip b). unfold strip.
  transitivity (rstrip (lstrip a ++ c :: p1 ++ b)).
  { f_equal. by apply lstrip_keeps. }
  transitivity (rstrip ((lstrip a ++ p0) ++ d :: b)).
  { f_equal. rewrite (app_comm_cons p1 b c), Hpd, <- !app_assoc. done. }
  rewrite rstrip_keeps by done. rewrite Hpd, <- !app_assoc. done.
Qed.

Lemma elem_of_lstrip c s : c ∈ lstrip s → c ∈ s.
Proof.
  induction s as [|a s IH]; simpl; [done|].
  destruct (isspace a); set_solver.
Qed.

Lemma elem_of_strip c s : c ∈ strip s → c ∈ s.
Proof.
  unfold strip, rstrip. intros H.
  apply elem_of_lstrip.
  apply list_elem_of_In, in_rev, list_elem_of_In, elem_of_lstrip in H.
  by apply list_elem_of_In, in_rev, list_elem_of_In.
Qed.

Lemma elem_of_lower c s : c ∈ lower s ↔ ∃ c', c = lower_cp c' ∧ c' ∈ s.
Proof. apply list_elem_of_fmap. Qed.

(** No character that has a lower case is left in a lowered text. *)
Lemma lower_no_upper c s : c ∈ lower s → cased_upper c = false.
Proof. intros (c' & -> & _)%elem_of_lower. apply lower_cp_not_upper. Qed.

(** An ASCII digit is the lower case of itself only. *)
Lemma lower_cp_digit c :
  0x30 ≤ lower_cp c ≤ 0x39 → lower_cp c = c.
Proof.
  intros H. apply N.eqb_eq. revert c H.
  assert (∀ c, implb ((0x30 <=? lower_cp c) && (lower_cp c <=? 0x39))
                     (lower_cp c =? c) = true) as Hall.
  { apply by_table; [by vm_compute|].
    intros c _ ->. rewrite N.eqb_refl. apply implb_true_r. }
  intros c [H1 H2]. specialize (Hall c).
  apply N.leb_le in H1, H2. by rewrite H1, H2 in Hall.
Qed.

(** ** Regular expressions: matching by derivatives is matching *)

Lemma lang_nil_nullable r : Re.lang r [] → Re.nullable r = true.
Proof.
  intros H. remember [] as s eqn:Es.
  induction H as [|p c Hc|r1 r2 s1 s2 _ IH1 _ IH2| | | |]; simpl; try done.
  - apply app_eq_nil in Es as [-> ->]. by rewrite IH1, IH2.
  - by rewrite IHlang.
  - rewrite IHlang by done. apply orb_true_r.
Qed.

Lemma nullable_lang_nil r : Re.nullable r = true → Re.lang r [].
Proof.
  induction r as [| |p|r1 IH1 r2 IH2|r1 IH1 r2 IH2|r IH]; simpl; intros H; try done.
  - constructor.
  - apply andb_true_iff in H as [H1 H2].
    change (Re.lang (Re.Cat r1 r2) ([] ++ [])). constructor; auto.
  - apply orb_true_iff in H as [H|H]; [apply Re.lang_alt_l|apply Re.lang_alt_r]; auto.
  - constructor.
Qed.

Lemma deriv_sound c r s : Re.lang (Re.deriv c r) s → Re.lang r (c :: s).
Proof.
  revert s. induction r as [| |p|r1 IH1 r2 IH2|r1 IH1 r2 IH2|r IH]; simpl; intros s H.
  - inversion H.
  - inversion H.
  - destruct (p c) eqn:E; inversion H; subst. by constructor.
  - assert (Hcat : ∀ s, Re.lang (Re.Cat (Re.deriv c r1) r2) s → Re.lang (Re.Cat r1 r2) (c :: s)).
    { intros s' H'. inversion H'; subst.
      change (Re.lang (Re.Cat r1 r2) ((c :: s1) ++ s2)). constructor; auto. }
    destruct (Re.nullable r1) eqn:E; [|by apply Hcat].
    inversion H; subst; [by apply Hcat|].
    change (Re.lang (Re.Cat r1 r2) ([] ++ c :: s)).
    constructor; [by apply nullable_lang_nil|auto].
  - inversion H; subst; [apply Re.lang_alt_l|apply Re.lang_alt_r]; auto.
  - inversion H; subst.
    change (Re.lang (Re.Star r) ((c :: s1) ++ s2)). constructor; auto.
Qed.

Lemma deriv_complete c r s : Re.lang r (c :: s) → Re.lang (Re.deriv c r) s.
Proof.
  intros H. remember (c :: s) as cs eqn:E. revert c s E.
  induction H as [|p c0 Hc|r1 r2 s1 s2 H1 IH1 H2 IH2|r1 r2 s0 H0 IH|r1 r2 s0 H0 IH
                 |r|r s1 s2 H1 IH1 H2 IH2]; intros c s E; simpl.
  - done.
  - injection E as -> <-. rewrite Hc. constructor.
  - destruct s1 as [|a s1]; simpl in E.
    + subst s2. rewrite (lang_nil_nullable _ H1). apply Re.lang_alt_r. by apply IH2.
    + injection E as -> <-.
      assert (Re.lang (Re.Cat (Re.deriv c r1) r2) (s1 ++ s2)) by (constructor; auto).
      destruct (Re.nullable r1); [by apply Re.lang_alt_l|done].
  - apply Re.lang_alt_l. by apply IH.
  - apply Re.lang_alt_r. by apply IH.
  - done.
  - destruct s1 as [|a s1]; simpl in E.
    + by apply IH2.
    + injection E as -> <-. constructor; auto.
Qed.

Lemma match_prefix_spec r s :
  Re.match_prefix r s = true ↔ ∃ p q, s = p ++ q ∧ Re.lang r p.
Proof.
  revert r. induction s as [|c s IH]; intros r; simpl; rewrite orb_true_iff.
  - split.
    + intros [H|?]; [|done]. exists [], []. split; [done|by apply nullable_lang_nil].
    + intros (p & q & E & H). symmetry in E. apply app_eq_nil in E as [-> ->].
      left. by apply lang_nil_nullable.
  - rewrite IH. split.
    + intros [H|(p & q & -> & H)].
      * exists [], (c :: s). split; [done|by apply nullable_lang_nil].
      * exists (c :: p), q. split; [done|by apply deriv_sound].
    + intros ([|a p] & q & E & H); simpl in E.
      * left. by apply lang_nil_nullable.
      * injection E as -> ->. right. exists p, q. split; [done|by apply deriv_complete].
Qed.

Lemma search_Some r s s' :
  Re.search r s = Some s' →
  ∃ pre, s = pre ++ s' ∧ Re.match_prefix r s' = true.
Proof.
  induction s as [|c s IH]; simpl.
  - destruct (Re.nullable r || false) eqn:E; [|done].
    intros [= <-]. by exists [].
  - destruct (Re.nullable r || Re.match_prefix (Re.deriv c r) s) eqn:E.
    + intros [= <-]. by exists [].
    + intros (pre & -> & H)%IH. by exists (c :: pre).
Qed.

Lemma search_None r s :
  Re.search r s = None ↔ ∀ pre suf, s = pre ++ suf → Re.match_prefix r suf = false.
Proof.
  induction s as [|c s IH].
  - simpl. destruct (Re.nullable r || false) eqn:E.
    + split; [done|]. intros H. specialize (H [] [] eq_refl). simpl in H. congruence.
    + split; [|done]. intros _ pre suf H. symmetry in H.
      apply app_eq_nil in H as [-> ->]. done.
  - change (Re.search r (c :: s))
      with (if Re.match_prefix r (c :: s) then Some (c :: s) else Re.search r s).
    destruct (Re.match_prefix r (c :: s)) eqn:E.
    + split; [done|]. intros H. specialize (H [] (c :: s) eq_refl). congruence.
    + rewrite IH. split.
      * intros H [|a pre] suf Hs; simpl in Hs; [by subst|].
        injection Hs as -> ->. by eapply H.
      * intros H pre suf ->. by apply (H (c :: pre)).
Qed.

(** The leftmost match: nothing matches at an earlier position. *)
Lemma search_leftmost r pre s :
  (∀ a b, pre = a ++ b → b ≠ [] → Re.match_prefix r (b ++ s) = false) →
  Re.match_prefix r s = true →
  Re.search r (pre ++ s) = Some s.
Proof.
  induction pre as [|c pre IH]; intros Hpre Hs.
  - destruct s; simpl in *; by rewrite Hs.
  - change (Re.search r ((c :: pre) ++ s))
      with (if Re.match_prefix r (c :: pre ++ s) then Some (c :: pre ++ s)
            else Re.search r (pre ++ s)).
    assert (Hc := Hpre [] (c :: pre) eq_refl ltac:(done)). change ((c :: pre) ++ s) with (c :: pre ++ s) in Hc. rewrite Hc.
    apply IH; [|done]. intros a b -> Hb. by apply (Hpre (c :: a) b).
Qed.

Lemma lang_lit s p : Re.lang (Re.Lit s) p ↔ p = s.
Proof.
  revert p. induction s as [|c s IH]; intros p; simpl.
  - split; [by inversion 1|intros ->; constructor].
  - split.
    + inversion 1 as [| |? ? s1 s2 H1 H2| | | |]; subst.
      apply IH in H2 as ->. inversion H1; subst.
      match goal with H : (_ =? _) = true |- _ => apply N.eqb_eq in H as -> end. done.
    + intros ->. change (Re.lang (Re.Cat (Re.Chr c) (Re.Lit s)) ([c] ++ s)).
      constructor; [constructor; apply N.eqb_refl|by apply IH].
Qed.

Lemma lang_star_cls (P : N → bool) p :
  Re.lang (Re.Star (Re.Cls P)) p ↔ Forall (λ c, P c = true) p.
Proof.
  split.
  - intros H. remember (Re.Star (Re.Cls P)) as r eqn:E.
    induction H as [| | | | | |r0 s1 s2 H1 _ H2 IH2]; try done.
    injection E as ->. inversion H1; subst. constructor; auto.
  - induction 1 as [|c p Hc _ IH]; [constructor|].
    change (Re.lang (Re.Star (Re.Cls P)) ([c] ++ p)). constructor; [by constructor|done].
Qed.

Lemma lang_opt r p : Re.lang (Re.Opt r) p ↔ Re.lang r p ∨ p = [].
Proof.
  unfold Re.Opt. split.
  - inversion 1; subst; [by left|]. right. by inversion H3.
  - intros [H| ->]; [by apply Re.lang_alt_l|apply Re.lang_alt_r; constructor].
Qed.

Lemma lang_cat r1 r2 p :
  Re.lang (Re.Cat r1 r2) p ↔ ∃ p1 p2, p = p1 ++ p2 ∧ Re.lang r1 p1 ∧ Re.lang r2 p2.
Proof.
  split.
  - inversion 1; subst. eauto.
  - intros (p1 & p2 & -> & H1 & H2). by constructor.
Qed.

Lemma lang_alt r1 r2 p :
  Re.lang (Re.Alt r1 r2) p ↔ Re.lang r1 p ∨ Re.lang r2 p.
Proof.
  split.
  - inversion 1; subst; auto.
  - intros [H|H]; [by apply Re.lang_alt_l|by apply Re.lang_alt_r].
Qed.

Lemma lang_cls P p : Re.lang (Re.Cls P) p ↔ ∃ c, p = [c] ∧ P c = true.
Proof.
  split.
  - inversion 1; subst. eauto.
  - intros (c & -> & H). by constructor.
Qed.

(** ** The patterns of [resolve] *)

(** Membership in a list that is written out. *)
Ltac in_list :=
  solve [repeat first [apply list_elem_of_here | apply list_elem_of_further]].

(** What the building pattern matches: a digit from 1 to 5, then an
    optional dash of the class, an optional ordinal ending and the building
    keyword, with any white space in between. *)
Lemma building_lang p :
  Re.lang building_re p ↔
  ∃ d ws1 dash ws2 ord ws3,
    p = d :: ws1 ++ dash ++ ws2 ++ ord ++ ws3 ++ building_keyword
    ∧ 0x31 ≤ d ≤ 0x35
    ∧ Forall (λ c, isspace c = true) ws1
    ∧ (dash = [] ∨ ∃ c, dash = [c] ∧ c ∈ 0x2D :: py "‚Äì")
    ∧ Forall (λ c, isspace c = true) ws2
    ∧ ord ∈ [[]; py "—Ä"; py "—Ä" ++ [0x2E]; py "–¥—É–≥–∞–∞—Ä"]
    ∧ Forall (λ c, isspace c = true) ws3.
Proof.
  unfold building_re. split.
  - intros H.
    apply lang_cat in H as (p1 & p2 & -> & H1 & H).
    apply lang_cls in H1 as (d & -> & Hd).
    apply lang_cat in H as (ws1 & p3 & -> & Hws1 & H). apply lang_star_cls in Hws1.
    apply lang_cat in H as (dash & p4 & -> & Hdash & H). apply lang_opt in Hdash.
    apply lang_cat in H as (ws2 & p5 & -> & Hws2 & H). apply lang_star_cls in Hws2.
    apply lang_cat in H as (ord & p6 & -> & Hord & H). apply lang_opt in Hord.
    apply lang_cat in H as (ws3 & p7 & -> & Hws3 & H). apply lang_star_cls in Hws3.
    apply lang_lit in H as ->.
    exists d, ws1, dash, ws2, ord, ws3. repeat split; try done.
    + apply andb_true_iff in Hd as [Hd _]. by apply N.leb_le.
    + apply andb_true_iff in Hd as [_ Hd]. by apply N.leb_le.
    + destruct Hdash as [(c & -> & Hc)%lang_cls|]; [right|by left].
      exists c. split; [done|]. by apply bool_decide_eq_true in Hc.
    + destruct Hord as [Hord| ->]; [|in_list].
      apply lang_alt in Hord as [->%lang_lit|Hord]; [in_list|].
      apply lang_alt in Hord as [Hord| ->%lang_lit]; [|in_list].
      apply lang_cat in Hord as (o1 & o2 & -> & ->%lang_lit & Ho2).
      apply lang_cls in Ho2 as (c & -> & ->%N.eqb_eq). in_list.
  - intros (d & ws1 & dash & ws2 & ord & ws3 & -> & [Hd1 Hd2] & Hws1 & Hdash & Hws2 & Hord & Hws3).
    change (d :: ws1 ++ dash ++ ws2 ++ ord ++ ws3 ++ building_keyword)
      with ([d] ++ ws1 ++ dash ++ ws2 ++ ord ++ ws3 ++ building_keyword).
    repeat (apply Re.lang_cat).
    + constructor. apply andb_true_iff. split; by apply N.leb_le.
    + by apply lang_star_cls.
    + apply lang_opt. destruct Hdash as [->|(c & -> & Hc)]; [by right|left].
      constructor. by apply bool_decide_eq_true.
    + by apply lang_star_cls.
    + apply lang_opt.
      repeat (apply elem_of_cons in Hord as [->|Hord]);
        [| | | |by apply elem_of_nil in Hord].
      * by right.
      * left. apply Re.lang_alt_l. by apply lang_lit.
      * left. apply Re.lang_alt_r, Re.lang_alt_l.
        constructor; [by apply lang_lit|constructor; apply N.eqb_refl].
      * left. apply Re.lang_alt_r, Re.lang_alt_r. by apply lang_lit.
    + by apply lang_star_cls.
    + by apply lang_lit.
Qed.

(** The building strategy answers with a digit from 1 to 5 that stands in
    the text, and only when the text holds the building keyword. *)
Lemma building_match_Some t n :
  building_match t = Some n →
  0x31 ≤ n ≤ 0x35 ∧ n ∈ t ∧ contains building_keyword t = true.
Proof.
  unfold building_match.
  destruct (Re.search building_re t) as [[|d s']|] eqn:E; try done.
  intros [= ->].
  apply search_Some in E as (pre & -> & H).
  apply match_prefix_spec in H as (p & q & Hp & H).
  apply building_lang in H
    as (d & ws1 & dash & ws2 & ord & ws3 & -> & Hd & _).
  injection Hp as <- ->. split; [done|].
  split; [apply elem_of_app; right; apply list_elem_of_here|].
  apply contains_spec.
  exists (pre ++ n :: ws1 ++ dash ++ ws2 ++ ord ++ ws3), q.
  rewrite <- !app_assoc. simpl. by rewrite <- !app_assoc.
Qed.

(** The keywords that are not ASCII hold upper-case letters (U+00C4,
    U+00C5, U+00C9), and [resolve] searches them in a text it has put in
    lower case. *)
Lemma upper_never_in_lower kw s c :
  c ∈ kw → cased_upper c = true → contains kw (lower s) = false.
Proof.
  intros Hc Hup. apply not_true_is_false. intros H.
  apply (contains_elem _ _ c) in H; [|done].
  apply lower_no_upper in H. congruence.
Qed.

Lemma dorm_keyword_never s : contains dorm_keyword (lower s) = false.
Proof. apply (upper_never_in_lower _ _ 0xC4); [|done]. vm_compute. in_list. Qed.

Lemma building_keyword_never s : contains building_keyword (lower s) = false.
Proof. apply (upper_never_in_lower _ _ 0xC4); [|done]. vm_compute. in_list. Qed.

Lemma institution_keyword_never s : contains institution_keyword (lower s) = false.
Proof. apply (upper_never_in_lower _ _ 0xC5); [|done]. vm_compute. in_list. Qed.

(** The building strategy never matches the text [resolve] gives it. *)
Lemma building_match_never s : building_match (lower s) = None.
Proof.
  destruct (building_match (lower s)) as [n|] eqn:E; [|done].
  apply building_match_Some in E as (_ & _ & E).
  by rewrite building_keyword_never in E.
Qed.

Lemma contains_dormitory t :
  contains (py "dormitory") t = true → contains (py "dorm") t = true.
Proof.
  intros (a & b & ->)%contains_spec. apply contains_spec.
  by exists a, (py "itory" ++ b).
Qed.

(** On the text [resolve] works with, the dormitory branch opens exactly
    when the text holds [dorm]. *)
Lemma mentions_dorm_lower s :
  mentions_dorm (lower s) = contains (py "dorm") (lower s).
Proof.
  unfold mentions_dorm. rewrite dorm_keyword_never. simpl.
  destruct (contains (py "dorm") (lower s)) eqn:E; [done|]. simpl.
  apply not_true_is_false. intros H%contains_dormitory. congruence.
Qed.

Lemma bounded_digit_from_elem before n t :
  bounded_digit_from before n t = true → n ∈ t.
Proof.
  revert before. induction t as [|c t IH]; intros before; simpl; [done|].
  intros [H|H]%orb_true_iff.
  - apply andb_true_iff in H as [H _]. apply andb_true_iff in H as [_ H].
    apply N.eqb_eq in H as ->. apply list_elem_of_here.
  - apply IH in H. by apply list_elem_of_further.
Qed.

(** A digit bounded by non-digits is in particular a substring, so the
    test of the loop is the substring test. *)
Lemma dorm_digit_test_elem t n : dorm_digit_test t n = true ↔ n ∈ t.
Proof.
  unfold dorm_digit_test. rewrite orb_true_iff, contains_single. split.
  - intros [H|H]; [by eapply bounded_digit_from_elem|done].
  - auto.
Qed.

(** ** Loading *)

Lemma lookup_foldl_insert (m : gmap pystr pystr) k ss s :
  foldl (λ m s, <[s := k]> m) m ss !! s
  = if decide (s ∈ ss) then Some k else m !! s.
Proof.
  revert m. induction ss as [|a ss IH]; intros m; cbn [foldl].
  - destruct (decide (s ∈ [])) as [H%elem_of_nil|]; done.
  - rewrite IH.
    destruct (decide (s ∈ ss)) as [Hin|Hin], (decide (s ∈ a :: ss)) as [Hin'|Hin'];
      try done.
    + exfalso. apply Hin'. by apply list_elem_of_further.
    + apply elem_of_cons in Hin' as [->|?]; [|done]. by rewrite lookup_insert_eq.
    + rewrite lookup_insert_ne; [done|]. intros ->. apply Hin', list_elem_of_here.
Qed.

Lemma url_not_empty (u : pystr) : (if nonempty u then Some u else None) ≠ Some [].
Proof. by destruct u. Qed.

Section LoadFacts.

Variable container_str : yaml → pystr.

Abbreviation str_of := (str_of container_str).
Abbreviation entry_place := (entry_place container_str).
Abbreviation load_item := (load_item container_str).
Abbreviation load := (load container_str).

Lemma clean_aliases_spec (k : pystr) (elems : list yaml) (table : gmap pystr pystr) (acc : list pystr) :
  fold_left
    (λ acc a,
       let a2 := lower (strip (str_of a)) in
       if nonempty a2 then (acc.1 ++ [a2], <[a2 := k]> acc.2) else acc)
    elems (acc, table)
  = let cleaned := filter (λ a, nonempty a = true)
                     (map (λ a, lower (strip (str_of a))) elems) in
    (acc ++ cleaned, foldl (λ m s, <[s := k]> m) table cleaned).
Proof.
  revert acc table. induction elems as [|a elems IH]; intros acc table; simpl.
  - by rewrite app_nil_r.
  - destruct (nonempty (lower (strip (str_of a)))) eqn:E.
    + rewrite IH. simpl. rewrite filter_cons_True by done. simpl.
      by rewrite <- app_assoc.
    + rewrite IH. simpl. rewrite filter_cons_False by congruence. done.
Qed.

(** The loop body skips the entry or adds the place it stands for. *)
Lemma load_item_entry st item :
  load_item st item
  = (o ← entry_place item;
     Ok (match o with Some p => add_place p st | None => st end)).
Proof.
  unfold load_item, entry_place.
  destruct item as [v|l|m]; try done. simpl.
  destruct (nonempty _ && nonempty _ && nonempty _); simpl; [|done].
  destruct (py_iter _) as [elems|e]; simpl; [|done].
  unfold clean_aliases. rewrite clean_aliases_spec. simpl.
  unfold add_place, registered. simpl. by rewrite foldl_app.
Qed.

Lemma entry_place_loaded item p :
  entry_place item = Ok (Some p) → loaded_place p.
Proof.
  unfold entry_place. destruct item as [v|l|m]; try done. simpl.
  destruct (nonempty _ && nonempty _ && nonempty _) eqn:E; simpl; [|done].
  destruct (py_iter _) as [elems|e]; simpl; [|done].
  intros [= <-].
  apply andb_true_iff in E as [E Hq]. apply andb_true_iff in E as [Hk Ht].
  split; simpl.
  - by apply nonempty_true.
  - by apply nonempty_true.
  - by apply nonempty_true.
  - apply strip_idem.
  - apply Forall_forall. intros a [Ha Hin]%list_elem_of_filter.
    split; [by apply nonempty_true|].
    apply list_elem_of_fmap in Hin as (x & -> & _). apply normal_form_idem.
  - apply url_not_empty.
Qed.

End LoadFacts.

(** *** The store after [load] *)

Lemma places_add_places ps st : _places (add_places ps st) = _places st ++ ps.
Proof.
  revert st. induction ps as [|p ps IH]; intros st; unfold add_places; simpl.
  - by rewrite app_nil_r.
  - fold (add_places ps (add_place p st)). rewrite IH. simpl.
    by rewrite <- app_assoc.
Qed.

Lemma alias_add_place p st s :
  _alias_to_key (add_place p st) !! s
  = if decide (s ∈ registered p) then Some (key p) else _alias_to_key st !! s.
Proof. apply lookup_foldl_insert. Qed.

(** Places that do not register a string leave its entry alone. *)
Lemma alias_add_places_other ps st s :
  (∀ q, q ∈ ps → s ∉ registered q) →
  _alias_to_key (add_places ps st) !! s = _alias_to_key st !! s.
Proof.
  revert st. induction ps as [|p ps IH]; intros st H; [done|].
  unfold add_places. simpl. fold (add_places ps (add_place p st)).
  rewrite IH by (intros q Hq; apply H; by apply list_elem_of_further).
  rewrite alias_add_place. rewrite decide_False; [done|].
  apply H, list_elem_of_here.
Qed.

(** The last place that registers a string owns its entry. *)
Lemma alias_add_places_last pre p post st s :
  s ∈ registered p →
  (∀ q, q ∈ post → s ∉ registered q) →
  _alias_to_key (add_places (pre ++ p :: post) st) !! s = Some (key p).
Proof.
  intros Hs Hpost. unfold add_places. rewrite foldl_app. simpl.
  fold (add_places pre st). fold (add_places post (add_place p (add_places pre st))).
  rewrite alias_add_places_other by done.
  rewrite alias_add_place. by rewrite decide_True.
Qed.

Lemma store_ok_empty : store_ok empty_store.
Proof.
  split; simpl.
  - constructor.
  - intros s k H. by rewrite lookup_empty in H.
  - intros p s H. by apply elem_of_nil in H.
Qed.

Lemma store_ok_add p st :
  loaded_place p → store_ok st → store_ok (add_place p st).
Proof.
  intros Hp [Hpl Htg Hrg]. split.
  - simpl. apply Forall_app. split; [done|]. by constructor.
  - intros s k. rewrite alias_add_place. simpl.
    destruct (decide (s ∈ registered p)) as [Hin|Hin].
    + intros [= <-]. exists p. split; [|done].
      apply elem_of_app. right. apply list_elem_of_here.
    + intros (q & Hq & Hk & Hs)%Htg. exists q. split; [|done].
      apply elem_of_app. by left.
  - intros q s Hq Hs. rewrite alias_add_place.
    destruct (decide (s ∈ registered p)) as [Hin|Hin]; [done|].
    simpl in Hq. apply elem_of_app in Hq as [Hq|Hq]; [by eapply Hrg|].
    apply list_elem_of_singleton in Hq as ->. done.
Qed.

Lemma store_ok_add_places ps st :
  Forall loaded_place ps → store_ok st → store_ok (add_places ps st).
Proof.
  intros Hps. revert st. induction Hps as [|p ps Hp _ IH]; intros st Hst; [done|].
  unfold add_places. simpl. apply IH. by apply store_ok_add.
Qed.

Section LoadStore.

Variable container_str : yaml → pystr.

Abbreviation entry_place := (entry_place container_str).
Abbreviation kept_places := (kept_places container_str).
Abbreviation load_item := (load_item container_str).
Abbreviation load := (load container_str).

(** The loop of [load] adds the places kept from the entries, and raises
    when reading an entry does. *)
Lemma for_each_load_item items st :
  for_each load_item items st
  = (ps ← kept_places items; Ok (add_places ps st)).
Proof.
  revert st. induction items as [|item items IH]; intros st; simpl; [done|].
  rewrite load_item_entry.
  destruct (entry_place item) as [o|e]; simpl; [|done].
  rewrite IH. destruct (kept_places items) as [ps|e]; simpl; [|done].
  by destruct o.
Qed.

Lemma load_kept doc items ps :
  config_items doc = Ok items → kept_places items = Ok ps →
  load (Some doc) = Ok (add_places ps empty_store).
Proof.
  intros Hi Hk. unfold load. rewrite Hi. simpl.
  by rewrite for_each_load_item, Hk.
Qed.

Lemma load_Ok file st :
  load file = Ok st →
  st = empty_store
  ∨ ∃ doc items ps, file = Some doc ∧ config_items doc = Ok items
      ∧ kept_places items = Ok ps ∧ st = add_places ps empty_store.
Proof.
  destruct file as [doc|]; simpl; [|intros [= <-]; by left].
  destruct (config_items doc) as [items|e] eqn:Hi; simpl; [|done].
  rewrite for_each_load_item.
  destruct (kept_places items) as [ps|e] eqn:Hk; simpl; [|done].
  intros [= <-]. right. by exists doc, items, ps.
Qed.

Lemma kept_places_loaded items ps :
  kept_places items = Ok ps → Forall loaded_place ps.
Proof.
  revert ps. induction items as [|item items IH]; intros ps; simpl.
  - intros [= <-]. constructor.
  - destruct (entry_place item) as [o|e] eqn:E; simpl; [|done].
    destruct (kept_places items) as [ps'|e] eqn:Hk; simpl; [|done].
    intros [= <-]. specialize (IH _ eq_refl).
    destruct o as [p|]; [|done]. constructor; [|done].
    by eapply entry_place_loaded.
Qed.

Lemma load_store_ok file st : load file = Ok st → store_ok st.
Proof.
  intros [->|(doc & items & ps & _ & _ & Hk & ->)]%load_Ok.
  - apply store_ok_empty.
  - apply store_ok_add_places; [|apply store_ok_empty].
    by eapply kept_places_loaded.
Qed.

End LoadStore.

(** *** Looking a key up *)

Lemma get_by_key_Some st k p :
  _get_by_key st k = Some p → p ∈ _places st ∧ key p = k.
Proof.
  unfold _get_by_key. intros [Hin Hk]%find_some.
  split; [by apply list_elem_of_In|by apply bool_decide_eq_true in Hk].
Qed.

Lemma get_by_key_defined st p :
  p ∈ _places st → ∃ p', _get_by_key st (key p) = Some p' ∧ key p' = key p.
Proof.
  intros Hin. unfold _get_by_key.
  destruct (find _ (_places st)) as [p'|] eqn:E.
  - exists p'. split; [done|]. apply find_some in E as [_ E].
    by apply bool_decide_eq_true in E.
  - exfalso. apply list_elem_of_In in Hin.
    apply (find_none _ _ E) in Hin. by apply bool_decide_eq_false in Hin.
Qed.

(** ** The cascade *)

Lemma resolve_cascade st text :
  resolve st text
  = if nonempty (lower (strip text))
    then first_match cascade st (lower (strip text))
    else None.
Proof.
  unfold resolve, cascade, first_match, alias_strategy, dorm_strategy,
    building_strategy, institution_strategy.
  destruct (nonempty (lower (strip text))); simpl; [|done].
  destruct (given (_alias_to_key st !! lower (strip text))); [done|].
  destruct (dorm_match _); simpl; [done|].
  destruct (building_match _); simpl; [done|].
  by destruct (mentions_institution _).
Qed.

Lemma resolve_empty_store text : resolve empty_store text = None.
Proof.
  unfold resolve. destruct (negb _); [done|]. simpl.
  rewrite lookup_empty. simpl.
  destruct (dorm_match _); [done|]. destruct (building_match _); [done|].
  by destruct (mentions_institution _).
Qed.

(** An alias hit: the text is in the table. *)
Lemma resolve_alias st text k :
  _alias_to_key st !! lower (strip text) = Some k →
  lower (strip text) ≠ [] → k ≠ [] →
  resolve st text = _get_by_key st k.
Proof.
  intros Hk Ht Hne. unfold resolve.
  rewrite (proj2 (nonempty_true _) Ht), Hk. simpl.
  by rewrite (proj2 (nonempty_true _) Hne).
Qed.

(** No alias hit: the patterns decide. *)
Lemma resolve_patterns st text :
  lower (strip text) ≠ [] →
  _alias_to_key st !! lower (strip text) = None →
  resolve st text
  = match dorm_match (lower (strip text)) with
    | Some n => _get_by_key st (py "num_dorm_" ++ [n])
    | None =>
        match building_match (lower (strip text)) with
        | Some n => _get_by_key st (py "num_building_" ++ [n])
        | None =>
            if mentions_institution (lower (strip text))
            then _get_by_key st (py "num_main") else None
        end
    end.
Proof.
  intros Ht Hk. unfold resolve.
  by rewrite (proj2 (nonempty_true _) Ht), Hk.
Qed.

(** ** Searching a list *)

Lemma find_first {A} (f : A → bool) pre x post :
  (∀ y, y ∈ pre → f y = false) → f x = true →
  find f (pre ++ x :: post) = Some x.
Proof.
  intros Hpre Hx. induction pre as [|y pre IH]; simpl.
  - by rewrite Hx.
  - rewrite (Hpre y) by apply list_elem_of_here.
    apply IH. intros z Hz. by apply Hpre, list_elem_of_further.
Qed.

Lemma find_no_match {A} (f : A → bool) l :
  (∀ y, y ∈ l → f y = false) → find f l = None.
Proof.
  intros H. induction l as [|y l IH]; simpl; [done|].
  rewrite (H y) by apply list_elem_of_here.
  apply IH. intros z Hz. by apply H, list_elem_of_further.
Qed.

(** ** Configuration that is not as expected *)

(** C1, counterexample. The document [- places] is a sequence, not a
    mapping: [load] raises [AttributeError] at [data.get("places")] instead
    of ending with zero records. *)
Lemma C1_counterexample :
  load plain (Some (YSeq [ystr "places"])) = Raise AttributeError.
Proof. reflexivity. Qed.

(** C1, as amended. [load] ends with zero records (no place, empty alias
    table) and without an exception when the document is falsy (an empty
    file, [null], an empty sequence or mapping) and when it is a mapping
    whose [places] entry is missing or falsy. A truthy document that is not
    a mapping (a non-empty sequence, a non-empty string, a number) makes
    [load] raise [AttributeError]. *)
Theorem C1_malformed_configuration (container_str : yaml → pystr) (doc : yaml) :
  (truthy doc = false → load container_str (Some doc) = Ok empty_store)
  ∧ (∀ m, doc = YMap m →
          truthy (default (YScalar SNone) (dict_get m (py "places"))) = false →
          load container_str (Some doc) = Ok empty_store)
  ∧ (truthy doc = true → (∀ m, doc ≠ YMap m) →
     load container_str (Some doc) = Raise AttributeError).
Proof.
  unfold load, config_items, py_or. split; [|split].
  - intros ->. reflexivity.
  - intros m -> Hv. destruct (truthy (YMap m)) eqn:E.
    + simpl. unfold py_or. by rewrite Hv.
    + reflexivity.
  - intros -> Hm. destruct doc as [v|l|m]; [done|done|]. by destruct (Hm m).
Qed.

Lemma C1_malformed_configuration_witness :
  load plain (Some (ymap [("sites", YSeq [ystr "a"])])) = Ok empty_store
  ∧ load plain (Some (ymap [("places", YScalar SNone)])) = Ok empty_store
  ∧ load plain (Some (YScalar SNone)) = Ok empty_store
  ∧ load plain (Some (ystr "places")) = Raise AttributeError.
Proof.
  split; [|split; [|split]].
  - apply (C1_malformed_configuration plain (ymap [("sites", YSeq [ystr "a"])]))
      with (m := [(SStr (py "sites"), YSeq [ystr "a"])]); reflexivity.
  - apply (C1_malformed_configuration plain (ymap [("places", YScalar SNone)]))
      with (m := [(SStr (py "places"), YScalar SNone)]); reflexivity.
  - apply (C1_malformed_configuration plain (YScalar SNone)). reflexivity.
  - apply (C1_malformed_configuration plain (ystr "places")); [reflexivity|].
    intros m. discriminate.
Defined.

(** ** Aliases and titles *)




(** ** The cascade of [resolve] *)

(** C3. [resolve] answers with the first strategy of the cascade (alias,
    dormitory, building, institution) that matches, and with none when the
    trimmed text is empty or no strategy matches. In the dormitory
    strategy a digit is matched when it stands bounded by non-digits or
    anywhere in the text; the first of the digits 1 to 6, in that order,
    that is matched decides: the strategy answers with the lookup of
    [num_dorm_<digit>], which is a place with that key whenever one is
    loaded. The strategy does not match, and the later ones are tried,
    when the text has no dormitory keyword or none of the six digits. *)
Theorem C3_ordered_cascade (st : LocationStore) (text : pystr) :
  let t := lower (strip text) in
  resolve st text = (if nonempty t then first_match cascade st t else None)
  ∧ (∀ n, dorm_digit_test t n = bounded_digit n t || contains [n] t)
  ∧ (∀ pre n post,
       dorm_digits = pre ++ n :: post →
       mentions_dorm t = true →
       dorm_digit_test t n = true →
       (∀ m, m ∈ pre → dorm_digit_test t m = false) →
       dorm_strategy st t = Some (_get_by_key st (py "num_dorm_" ++ [n]))
       ∧ (alias_strategy st t = None →
          resolve st text = _get_by_key st (py "num_dorm_" ++ [n]))
       ∧ ∀ p, p ∈ _places st → key p = py "num_dorm_" ++ [n] →
              ∃ p', _get_by_key st (py "num_dorm_" ++ [n]) = Some p'
                    ∧ key p' = py "num_dorm_" ++ [n])
  ∧ (mentions_dorm t = false ∨ (∀ n, n ∈ dorm_digits → dorm_digit_test t n = false) →
     dorm_strategy st t = None
     ∧ first_match [dorm_strategy; building_strategy; institution_strategy] st t
       = first_match [building_strategy; institution_strategy] st t).
Proof.
  intros t. split; [apply resolve_cascade|]. split; [done|]. split.
  - intros pre n post Hd Hm Hn Hpre.
    assert (Hs : dorm_strategy st t = Some (_get_by_key st (py "num_dorm_" ++ [n]))).
    { unfold dorm_strategy, dorm_match. rewrite Hm, Hd.
      by rewrite (find_first _ _ _ _ Hpre Hn). }
    split; [done|]. split.
    + intros Ha. rewrite resolve_cascade. fold t.
      assert (Hne : nonempty t = true).
      { apply nonempty_true. intros E. apply dorm_digit_test_elem in Hn.
        rewrite E in Hn. by apply elem_of_nil in Hn. }
      rewrite Hne. simpl. by rewrite Ha, Hs.
    + intros p Hp Hk. rewrite <- Hk.
      destruct (get_by_key_defined st p Hp) as (p' & -> & Hk'). eauto.
  - intros H.
    assert (Hnone : dorm_strategy st t = None).
    { unfold dorm_strategy, dorm_match.
      destruct H as [->|H]; [done|].
      rewrite (find_no_match _ _ H). by destruct (mentions_dorm t). }
    split; [done|]. simpl. by rewrite Hnone.
Qed.

Lemma C3_ordered_cascade_witness :
  resolve (store_of dorms) (py "Dorm 4, room 1") = Some dorm_1
  ∧ resolve (store_of dorms) (py "NUM dorm") = None.
Proof.
  destruct (C3_ordered_cascade (store_of dorms) (py "Dorm 4, room 1"))
    as (Hres & _ & Hdorm & _).
  destruct (C3_ordered_cascade (store_of dorms) (py "NUM dorm"))
    as (Hres' & _ & _ & Hnone).
  split.
  - rewrite Hres.
    destruct (Hdorm [] 0x31 [0x32; 0x33; 0x34; 0x35; 0x36]) as (Hs & _ & _);
      [reflexivity|by vm_compute|by vm_compute|by intros m ?%elem_of_nil|].
    change (first_match cascade (store_of dorms) (lower (strip (py "Dorm 4, room 1"))))
      with (match alias_strategy (store_of dorms) (lower (strip (py "Dorm 4, room 1"))) with
            | Some r => r
            | None =>
                match dorm_strategy (store_of dorms) (lower (strip (py "Dorm 4, room 1"))) with
                | Some r => r
                | None => first_match [building_strategy; institution_strategy]
                            (store_of dorms) (lower (strip (py "Dorm 4, room 1")))
                end
            end).
    rewrite Hs. by vm_compute.
  - rewrite Hres'.
    destruct Hnone as [_ Hnext].
    { right. intros n Hn. apply not_true_is_false. intros Ht%dorm_digit_test_elem.
      revert Ht. vm_compute. intros Ht.
      repeat (apply elem_of_cons in Ht as [Ht|Ht];
              [subst n; repeat (apply elem_of_cons in Hn as [Hn|Hn]; [discriminate Hn|]);
               by apply elem_of_nil in Hn|]).
      by apply elem_of_nil in Ht. }
    change (first_match cascade (store_of dorms) (lower (strip (py "NUM dorm"))))
      with (match alias_strategy (store_of dorms) (lower (strip (py "NUM dorm"))) with
            | Some r => r
            | None => first_match [dorm_strategy; building_strategy; institution_strategy]
                        (store_of dorms) (lower (strip (py "NUM dorm")))
            end).
    rewrite Hnext. by vm_compute.
Defined.

(** ** Dormitories before buildings *)

(** C4, counterexample. The text holds the keyword [dorm] and the digit 4
    and the place keyed [num_dorm_4] is loaded, yet [resolve] returns the
    place keyed [num_dorm_1]: the digit 1 of the text is tried first. *)
Lemma C4_counterexample :
  (st ← load plain (Some dorms);
   Ok (_get_by_key st (py "num_dorm_4"), resolve st (py "dorm 4 room 1")))
  = Ok (Some dorm_4, Some dorm_1)
  ∧ contains (py "dorm") (py "dorm 4 room 1") = true
  ∧ contains (py "4") (py "dorm 4 room 1") = true.
Proof. by vm_compute. Qed.

Lemma digit_absent c text :
  0x30 ≤ c ≤ 0x39 → c ∉ text → c ∉ lower (strip text).
Proof.
  intros Hc Hnot (c' & -> & Hin)%elem_of_lower.
  apply elem_of_strip in Hin. by rewrite (lower_cp_digit c' Hc) in Hnot.
Qed.

Lemma nonspace_present c text :
  isspace c = false → lower_cp c = c → c ∈ text → c ∈ lower (strip text).
Proof.
  intros Hs Hl Hin. apply elem_of_lower. exists c. split; [done|].
  apply contains_single, contains_strip; [by repeat constructor|].
  by apply contains_single.
Qed.

(** C4, as amended. When the text holds [dorm] (in any letter case) and
    the digit 4 but none of the digits 1, 2 and 3, and its normal form is
    not an alias of another key, [resolve] answers with the lookup of
    [num_dorm_4], whatever the building pattern would say of the text;
    that is a place keyed [num_dorm_4] whenever one is loaded. *)
Theorem C4_dorm_before_building (st : LocationStore) (text : pystr) :
  contains (py "dorm") (lower text) = true →
  0x34 ∈ text → 0x31 ∉ text → 0x32 ∉ text → 0x33 ∉ text →
  (∀ k, _alias_to_key st !! lower (strip text) = Some k → k = py "num_dorm_4") →
  resolve st text = _get_by_key st (py "num_dorm_4")
  ∧ ∀ p, p ∈ _places st → key p = py "num_dorm_4" →
         ∃ p', resolve st text = Some p' ∧ key p' = py "num_dorm_4".
Proof.
  intros Hkw H4 H1 H2 H3 Halias.
  assert (Hres : resolve st text = _get_by_key st (py "num_dorm_4")).
  { assert (Hm : dorm_match (lower (strip text)) = Some 0x34).
    { unfold dorm_match. rewrite mentions_dorm_lower, <- strip_lower.
      rewrite contains_strip; [|by repeat constructor|done].
      rewrite strip_lower.
      apply (find_first _ [0x31; 0x32; 0x33] 0x34 [0x35; 0x36]).
      - intros m Hm. apply not_true_is_false. intros Ht%dorm_digit_test_elem.
        revert Ht.
        repeat (apply elem_of_cons in Hm as [->|Hm]; [by apply digit_absent|]).
        by apply elem_of_nil in Hm.
      - apply dorm_digit_test_elem. by apply nonspace_present. }
    assert (Hne : lower (strip text) ≠ []).
    { intros E.
      assert (Hin : 0x34 ∈ lower (strip text)) by (by apply nonspace_present).
      rewrite E in Hin. by apply elem_of_nil in Hin. }
    destruct (_alias_to_key st !! lower (strip text)) as [k|] eqn:Ek.
    - rewrite (Halias k eq_refl) in Ek.
      by rewrite (resolve_alias _ _ _ Ek Hne).
    - by rewrite (resolve_patterns _ _ Hne Ek), Hm. }
  split; [done|].
  intros p Hp Hk. rewrite Hres, <- Hk.
  destruct (get_by_key_defined st p Hp) as (p' & -> & Hk'). eauto.
Qed.

Lemma C4_dorm_before_building_witness :
  resolve (store_of dorms) (py " Dormitory 4, 5th floor ") = Some dorm_4.
Proof.
  destruct (C4_dorm_before_building (store_of dorms) (py " Dormitory 4, 5th floor "))
    as [Hres _].
  - by vm_compute.
  - vm_compute. in_list.
  - vm_compute. intros H.
    repeat (apply elem_of_cons in H as [H|H]; [discriminate H|]).
    by apply elem_of_nil in H.
  - vm_compute. intros H.
    repeat (apply elem_of_cons in H as [H|H]; [discriminate H|]).
    by apply elem_of_nil in H.
  - vm_compute. intros H.
    repeat (apply elem_of_cons in H as [H|H]; [discriminate H|]).
    by apply elem_of_nil in H.
  - intros k. by vm_compute.
  - rewrite Hres. by vm_compute.
Defined.

(** ** The same alias in two entries *)



(** ** No valid entry *)

(** C6. After [load] of an absent file, or of a configuration none of
    whose entries is kept, [list_titles] is empty and [resolve] returns
    none for every text. *)
Theorem C6_nothing_loaded
    (container_str : yaml → pystr) (file : option yaml) :
  file = None
  ∨ (∃ doc items, file = Some doc ∧ config_items doc = Ok items
                  ∧ kept_places container_str items = Ok []) →
  ∃ st, load container_str file = Ok st
        ∧ list_titles st = []
        ∧ ∀ text, resolve st text = None.
Proof.
  intros H. exists empty_store. split; [|split].
  - destruct H as [->|(doc & items & -> & Hi & Hk)]; [done|].
    by rewrite (load_kept _ _ _ _ Hi Hk).
  - done.
  - apply resolve_empty_store.
Qed.

Lemma C6_nothing_loaded_witness :
  (∃ st, load plain None = Ok st
         ∧ list_titles st = [] ∧ ∀ text, resolve st text = None)
  ∧ (∃ st, load plain (Some (ymap [("places",
              YSeq [ymap [("key", ystr "num_main"); ("title", ystr " ")]])])) = Ok st
           ∧ list_titles st = [] ∧ ∀ text, resolve st text = None).
Proof.
  split.
  - apply (C6_nothing_loaded plain None). by left.
  - apply (C6_nothing_loaded plain). right.
    eexists _, [ymap [("key", ystr "num_main"); ("title", ystr " ")]].
    split; [reflexivity|]. split; [reflexivity|]. by vm_compute.
Defined.

(** ** The building pattern *)

(** C7. The building keyword of the pattern holds the upper-case letter
    U+00C4, and [resolve] searches the pattern in a text it has put in
    lower case: the building strategy matches no input. The pattern does
    match the example of the docstring of [LocationStore] as the file
    stores it, and no longer once the text is lowered. With a place keyed
    [num_building_2] loaded, the [resolve] of "2-р байр" is none. *)
Theorem C7_building_pattern_never_matches :
  (∀ st text, building_strategy st (lower (strip text)) = None)
  ∧ building_match (py "2-—Ä –±–∞–π—Ä") = Some 0x32
  ∧ building_match (lower (py "2-—Ä –±–∞–π—Ä")) = None
  ∧ (st ← load plain (Some campus);
     Ok (_get_by_key st (py "num_building_2"), resolve st (py "2-р байр")))
    = Ok (Some building_2, None).
Proof.
  split; [|by vm_compute].
  intros st text. unfold building_strategy. by rewrite building_match_never.
Qed.

(** ** Empty input *)

(** C9. [resolve] returns none for the empty text, for three spaces and
    for every text made of white space only, whatever the store holds. *)
Theorem C9_empty_input (st : LocationStore) :
  resolve st (py "") = None
  ∧ resolve st (py "   ") = None
  ∧ ∀ text, Forall (λ c, isspace c = true) text → resolve st text = None.
Proof.
  split; [done|]. split; [done|].
  intros text H. unfold resolve. by rewrite (strip_all_spaces _ H).
Qed.

Lemma C9_empty_input_witness :
  resolve (store_of libraries) [0x09; 0x20; 0xA0; 0x0A] = None.
Proof.
  apply (C9_empty_input (store_of libraries)). by repeat constructor.
Defined.

(** ** The alias table points to loaded places *)

(** C10. After [load], every key in the alias table is the key of a place
    of the place list, whose key, title and query are not empty; so
    [resolve] returns a place whenever the normal form of the text is in
    the alias table. *)
Theorem C10_alias_targets_loaded
    (container_str : yaml → pystr) (file : option yaml) (st : LocationStore) :
  load container_str file = Ok st →
  (∀ s k, _alias_to_key st !! s = Some k →
     ∃ p, p ∈ _places st ∧ key p = k
          ∧ key p ≠ [] ∧ title p ≠ [] ∧ query p ≠ [])
  ∧ (∀ text k, _alias_to_key st !! lower (strip text) = Some k →
       ∃ p, resolve st text = Some p ∧ key p = k).
Proof.
  intros Hload. destruct (load_store_ok _ _ _ Hload) as [Hpl Htg Hrg].
  assert (Hall : ∀ p, p ∈ _places st → loaded_place p)
    by (by apply Forall_forall).
  split.
  - intros s k (p & Hp & Hk & _)%Htg. exists p.
    destruct (Hall p Hp). by repeat split.
  - intros text k Hk.
    destruct (Htg _ _ Hk) as (p & Hp & <- & Hreg).
    destruct (Hall p Hp) as [Hkey Htitle _ _ Hal _].
    assert (Hne : lower (strip text) ≠ []).
    { unfold registered in Hreg. apply elem_of_app in Hreg as [Hreg|Hreg].
      - by destruct (proj1 (Forall_forall _ _) Hal _ Hreg).
      - apply list_elem_of_singleton in Hreg as ->.
        intros E%lower_nil_inv. done. }
    rewrite (resolve_alias _ _ _ Hk Hne Hkey).
    destruct (get_by_key_defined st p Hp) as (p' & -> & Hk'). eauto.
Qed.

Lemma C10_alias_targets_loaded_witness :
  ∃ p, resolve (store_of libraries) (py " Main LIB") = Some p
       ∧ key p = py "central_library".
Proof.
  apply (C10_alias_targets_loaded plain (Some libraries) (store_of libraries));
    by vm_compute.
Defined.

(** ** The link of the reply *)

Lemma resolve_in_places st text p : resolve st text = Some p → p ∈ _places st.
Proof.
  assert (Hget : ∀ k, _get_by_key st k = Some p → p ∈ _places st)
    by (intros k Hk; by apply get_by_key_Some in Hk as [? _]).
  unfold resolve. destruct (negb _); [done|]. simpl.
  destruct (given _); [apply Hget|].
  destruct (dorm_match _); [apply Hget|].
  destruct (building_match _); [apply Hget|].
  destruct (mentions_institution _); [apply Hget|done].
Qed.

(** Each byte is kept, turned into [+], or written [%XX] where [XX] reads
    back as the byte. *)
Lemma quote_byte_cases b :
  b < 256 →
  (always_safe b = true ∧ quote_byte b = [b])
  ∨ (b = 0x20 ∧ quote_byte b = [0x2B])
  ∨ (∃ h l, quote_byte b = [0x25; h; l] ∧ 16 * hex_value h + hex_value l = b).
Proof.
  intros Hb. unfold quote_byte.
  destruct (always_safe b) eqn:Es; [by left|]. right.
  destruct (b =? 0x20) eqn:E20; [left; by apply N.eqb_eq in E20|]. right.
  eexists _, _. split; [done|].
  apply N.eqb_eq. revert b Hb Es E20.
  assert (Hall : forallb (λ b, 16 * hex_value (hex_digit (b / 16))
                               + hex_value (hex_digit (b mod 16)) =? b)
                   (map N.of_nat (seq 0 256)) = true) by (by vm_compute).
  intros b Hb _ _. by apply (forallb_below _ _ Hall).
Qed.



(** * Further properties of the code *)

(** ** What [load] keeps and what makes it raise *)

Lemma config_items_places_doc items : config_items (places_doc items) = Ok items.
Proof. unfold config_items, places_doc, py_or. simpl. by destruct items. Qed.

Section MoreLoad.

Variable container_str : yaml → pystr.

Abbreviation entry_place := (entry_place container_str).
Abbreviation kept_places := (kept_places container_str).
Abbreviation load := (load container_str).
Abbreviation field := (field container_str).

Lemma kept_places_app xs ys :
  kept_places (xs ++ ys)
  = (ps ← kept_places xs; qs ← kept_places ys; Ok (ps ++ qs)).
Proof.
  induction xs as [|x xs IH]; simpl.
  - by destruct (kept_places ys).
  - destruct (entry_place x) as [o|e]; simpl; [|done].
    rewrite IH. destruct (kept_places xs) as [ps|e]; simpl; [|done].
    destruct (kept_places ys) as [qs|e]; simpl; [|done].
    by destruct o.
Qed.

Lemma kept_places_app_Ok xs ys ps :
  kept_places (xs ++ ys) = Ok ps →
  ∃ p1 p2, kept_places xs = Ok p1 ∧ kept_places ys = Ok p2 ∧ ps = p1 ++ p2.
Proof.
  rewrite kept_places_app.
  destruct (kept_places xs) as [p1|e]; simpl; [|done].
  destruct (kept_places ys) as [p2|e]; simpl; [|done].
  intros [= <-]. eauto.
Qed.

Lemma kept_places_cons_Ok x ys ps :
  kept_places (x :: ys) = Ok ps →
  ∃ o p2, entry_place x = Ok o ∧ kept_places ys = Ok p2
          ∧ ps = match o with Some p => p :: p2 | None => p2 end.
Proof.
  simpl. destruct (entry_place x) as [o|e]; simpl; [|done].
  destruct (kept_places ys) as [p2|e]; simpl; [|done].
  intros [= <-]. eauto.
Qed.

Lemma load_places_doc items :
  load (Some (places_doc items))
  = (ps ← kept_places items; Ok (add_places ps empty_store)).
Proof.
  unfold load. rewrite config_items_places_doc. simpl.
  apply for_each_load_item.
Qed.

(** The fields of an entry that is a mapping decide whether it is kept. *)
Lemma entry_place_skipped m :
  field m (py "key") = [] ∨ field m (py "title") = [] ∨ field m (py "query") = [] →
  entry_place (YMap m) = Ok None.
Proof.
  intros H. unfold entry_place. simpl.
  fold (field m (py "key")) (field m (py "title")) (field m (py "query")).
  destruct H as [ -> | [ -> | -> ] ]; simpl; [done| |].
  - by rewrite andb_false_r.
  - by rewrite andb_false_r.
Qed.

Lemma entry_place_kept m :
  field m (py "key") ≠ [] → field m (py "title") ≠ [] → field m (py "query") ≠ [] →
  entry_place (YMap m)
  = (elems ← py_iter (py_or (default (YScalar SNone) (dict_get m (py "aliases"))) (YSeq []));
     Ok (Some {| key := field m (py "key"); title := field m (py "title");
                 query := field m (py "query");
                 aliases := filter (λ a, nonempty a = true)
                              (map (λ a, lower (strip (str_of container_str a))) elems);
                 url := if nonempty (field m (py "url"))
                        then Some (field m (py "url")) else None |})).
Proof.
  intros Hk Ht Hq. unfold entry_place. simpl.
  fold (field m (py "key")) (field m (py "title")) (field m (py "query"))
       (field m (py "url")).
  by rewrite (proj2 (nonempty_true _) Hk), (proj2 (nonempty_true _) Ht),
    (proj2 (nonempty_true _) Hq).
Qed.

Lemma readable_entry_place item :
  readable container_str item → ∃ o, entry_place item = Ok o.
Proof.
  intros (m & -> & H).
  destruct (decide (field m (py "key") = [])) as [Hk|Hk];
    [exists None; apply entry_place_skipped; auto|].
  destruct (decide (field m (py "title") = [])) as [Ht|Ht];
    [exists None; apply entry_place_skipped; auto|].
  destruct (decide (field m (py "query") = [])) as [Hq|Hq];
    [exists None; apply entry_place_skipped; auto|].
  rewrite entry_place_kept by done.
  specialize (H Hk Ht Hq). unfold py_or.
  destruct (dict_get m (py "aliases")) as [v|] eqn:E; simpl; [|eauto].
  destruct (truthy v) eqn:Etr; simpl; [|eauto].
  specialize (H v eq_refl Etr).
  destruct v as [[| | | |s]|l|m']; try done; simpl; eauto.
Qed.

Lemma readable_kept_places items :
  Forall (readable container_str) items → ∃ ps, kept_places items = Ok ps.
Proof.
  induction 1 as [|x xs Hx _ [ps IH]]; simpl; [eauto|].
  destruct (readable_entry_place x Hx) as [o ->]. simpl. rewrite IH. simpl. eauto.
Qed.

(** X1. [load] keeps the places in the order of their entries: when two
    entries of the configuration are kept, the place of the earlier one
    stands before the place of the later one in the place list, and so do
    their titles in [list_titles]. *)
Theorem load_keeps_order
    (doc : yaml) (i1 i2 i3 : list yaml) (e1 e2 : yaml) (p1 p2 : Place)
    (st : LocationStore) :
  config_items doc = Ok (i1 ++ e1 :: i2 ++ e2 :: i3) →
  load (Some doc) = Ok st →
  entry_place e1 = Ok (Some p1) →
  entry_place e2 = Ok (Some p2) →
  ∃ a b c, _places st = a ++ p1 :: b ++ p2 :: c
           ∧ list_titles st
             = map title a ++ title p1 :: map title b ++ title p2 :: map title c.
Proof.
  intros Hi Hload H1 H2.
  destruct (load_Ok _ _ _ Hload) as [->|(doc' & items & ps & [= <-] & Hi' & Hk & ->)].
  - simpl in Hload. rewrite Hi in Hload. simpl in Hload.
    rewrite for_each_load_item, kept_places_app in Hload.
    destruct (kept_places i1) as [q1|]; simpl in Hload; [|done].
    rewrite H1 in Hload. simpl in Hload.
    destruct (kept_places (i2 ++ e2 :: i3)) as [q2|]; simpl in Hload; [|done].
    injection Hload as Hload.
    apply (f_equal _places) in Hload. rewrite places_add_places in Hload.
    simpl in Hload. by destruct q1.
  - rewrite Hi in Hi'. injection Hi' as <-.
    apply kept_places_app_Ok in Hk as (a & r1 & _ & Hk & ->).
    apply kept_places_cons_Ok in Hk as (o1 & r2 & Ho1 & Hk & ->).
    rewrite H1 in Ho1. injection Ho1 as <-.
    apply kept_places_app_Ok in Hk as (b & r3 & _ & Hk & ->).
    apply kept_places_cons_Ok in Hk as (o2 & c & Ho2 & _ & ->).
    rewrite H2 in Ho2. injection Ho2 as <-.
    exists a, b, c. unfold list_titles. rewrite places_add_places. simpl.
    split; [done|]. by rewrite map_app, (map_cons title), map_app.
Qed.

(** X2. An entry that misses a key, a title or a query (or has it blank)
    leaves no trace: [load] gives the same outcome as for the configuration
    without that entry, whatever else the entry holds. *)
Theorem load_skipped_entry_leaves_no_trace
    (pre post : list yaml) (m : list (scalar * yaml)) :
  field m (py "key") = [] ∨ field m (py "title") = [] ∨ field m (py "query") = [] →
  load (Some (places_doc (pre ++ YMap m :: post)))
  = load (Some (places_doc (pre ++ post))).
Proof.
  intros H. rewrite !load_places_doc, !kept_places_app. simpl.
  rewrite (entry_place_skipped m H). simpl.
  destruct (kept_places pre) as [ps|]; simpl; [|done].
  by destruct (kept_places post).
Qed.

(** X3. [load] returns normally when every entry of [places] is a mapping
    and the [aliases] of every kept entry are missing, falsy or iterable;
    the place list is then no longer than the list of entries. *)
Theorem load_succeeds_on_readable_entries (items : list yaml) :
  Forall (readable container_str) items →
  ∃ st, load (Some (places_doc items)) = Ok st
        ∧ (length (_places st) ≤ length items)%nat.
Proof.
  intros H. rewrite load_places_doc.
  destruct (readable_kept_places items H) as [ps Hps]. rewrite Hps. simpl.
  eexists. split; [done|]. rewrite places_add_places. simpl.
  clear H. revert ps Hps. induction items as [|x xs IH]; intros ps Hps.
  - by injection Hps as <-.
  - apply kept_places_cons_Ok in Hps as (o & p2 & _ & Hk & ->).
    specialize (IH _ Hk). destruct o; simpl; lia.
Qed.

(** X4. The first entry that [load] cannot read decides the exception,
    whatever was kept before it: [AttributeError] for an entry that is not
    a mapping, [TypeError] for a kept entry whose [aliases] value is truthy
    and not iterable (a number, [true]). *)
Theorem load_raises_at_first_unreadable_entry (pre post : list yaml) (e : yaml) :
  Forall (readable container_str) pre →
  ((∀ m, e ≠ YMap m) →
   load (Some (places_doc (pre ++ e :: post))) = Raise AttributeError)
  ∧ (∀ m v, e = YMap m →
       field m (py "key") ≠ [] → field m (py "title") ≠ [] → field m (py "query") ≠ [] →
       dict_get m (py "aliases") = Some v → truthy v = true → iterable v = false →
       load (Some (places_doc (pre ++ e :: post))) = Raise TypeError).
Proof.
  intros Hpre. destruct (readable_kept_places pre Hpre) as [ps Hps].
  split.
  - intros He. rewrite load_places_doc, kept_places_app, Hps. simpl.
    destruct e as [v|l|m]; [done|done|by destruct (He m)].
  - intros m v -> Hk Ht Hq Hv Htr Hit.
    rewrite load_places_doc, kept_places_app, Hps. simpl.
    rewrite entry_place_kept by done. rewrite Hv. unfold py_or. simpl. rewrite Htr.
    destruct v as [[| | | |s]|l|m']; by simpl.
Qed.

End MoreLoad.

Lemma load_keeps_order_witness :
  ∃ a b c, _places (store_of libraries) = a ++ central_library :: b ++ law_library :: c
           ∧ list_titles (store_of libraries)
             = map title a ++ title central_library :: map title b
               ++ title law_library :: map title c.
Proof.
  apply (load_keeps_order plain libraries [] [] []
           (ymap [ ("key", ystr "central_library"); ("title", ystr "Central Library");
                   ("query", ystr "NUM central library");
                   ("aliases", YSeq [ystr "lib"; ystr "Main Lib"]) ])
           (ymap [ ("key", ystr "law_library"); ("title", ystr "Law Library");
                   ("query", ystr "NUM law library");
                   ("aliases", YSeq [ystr " LIB "]) ])).
  - reflexivity.
  - by vm_compute.
  - by vm_compute.
  - by vm_compute.
Defined.

Lemma load_skipped_entry_leaves_no_trace_witness :
  load plain (Some (places_doc
    [ ymap [ ("key", ystr "num_dorm_1"); ("title", ystr "Dormitory 1");
             ("query", ystr "NUM dormitory 1") ];
      ymap [ ("key", ystr "num_dorm_2"); ("title", ystr "  ");
             ("query", ystr "NUM dormitory 2"); ("aliases", YScalar (SInt 7)) ] ]))
  = load plain (Some (places_doc
    [ ymap [ ("key", ystr "num_dorm_1"); ("title", ystr "Dormitory 1");
             ("query", ystr "NUM dormitory 1") ] ])).
Proof.
  apply (load_skipped_entry_leaves_no_trace plain
           [ ymap [ ("key", ystr "num_dorm_1"); ("title", ystr "Dormitory 1");
                    ("query", ystr "NUM dormitory 1") ] ] []).
  right. left. reflexivity.
Defined.

Lemma load_succeeds_on_readable_entries_witness :
  ∃ st, load plain (Some (places_doc
          [ ymap [ ("key", ystr "a"); ("title", ystr "A"); ("query", ystr "qa");
                   ("aliases", ystr "xy") ];
            ymap [ ("title", ystr "no key"); ("aliases", YScalar (SInt 7)) ] ])) = Ok st
        ∧ (length (_places st) ≤ 2)%nat.
Proof.
  apply (load_succeeds_on_readable_entries plain
           [ ymap [ ("key", ystr "a"); ("title", ystr "A"); ("query", ystr "qa");
                    ("aliases", ystr "xy") ];
             ymap [ ("title", ystr "no key"); ("aliases", YScalar (SInt 7)) ] ]).
  repeat constructor.
  - eexists. split; [reflexivity|]. intros _ _ _ v [= <-] _. reflexivity.
  - eexists. split; [reflexivity|]. intros Hk. by destruct Hk.
Defined.

Lemma load_raises_at_first_unreadable_entry_witness :
  load plain (Some (places_doc
    [ ymap [ ("key", ystr "a"); ("title", ystr "A"); ("query", ystr "qa") ];
      ystr "b" ])) = Raise AttributeError
  ∧ load plain (Some (places_doc
      [ ymap [ ("key", ystr "a"); ("title", ystr "A"); ("query", ystr "qa") ];
        ymap [ ("key", ystr "b"); ("title", ystr "B"); ("query", ystr "qb");
               ("aliases", YScalar (SInt 7)) ] ])) = Raise TypeError.
Proof.
  assert (Hpre : Forall (readable plain)
            [ ymap [ ("key", ystr "a"); ("title", ystr "A"); ("query", ystr "qa") ] ]).
  { repeat constructor. eexists. split; [reflexivity|]. intros _ _ _ v Hv. discriminate Hv. }
  split.
  - apply (proj1 (load_raises_at_first_unreadable_entry plain _ [] (ystr "b") Hpre)).
    intros m. discriminate.
  - apply (proj2 (load_raises_at_first_unreadable_entry plain _ []
                    (ymap [ ("key", ystr "b"); ("title", ystr "B"); ("query", ystr "qb");
                            ("aliases", YScalar (SInt 7)) ]) Hpre)
             _ (YScalar (SInt 7)) eq_refl); by vm_compute.
Defined.

(** ** How the fields of an entry are read *)

Lemma entry_place_Some_inv container_str m p :
  entry_place container_str (YMap m) = Ok (Some p) →
  field container_str m (py "key") ≠ []
  ∧ field container_str m (py "title") ≠ []
  ∧ field container_str m (py "query") ≠ []
  ∧ ∃ elems,
      py_iter (py_or (default (YScalar SNone) (dict_get m (py "aliases"))) (YSeq []))
      = Ok elems
      ∧ p = {| key := field container_str m (py "key");
               title := field container_str m (py "title");
               query := field container_str m (py "query");
               aliases := filter (λ a, nonempty a = true)
                            (map (λ a, lower (strip (str_of container_str a))) elems);
               url := if nonempty (field container_str m (py "url"))
                      then Some (field container_str m (py "url")) else None |}.
Proof.
  intros H.
  destruct (decide (field container_str m (py "key") = [])) as [Hk|Hk];
    [by rewrite entry_place_skipped in H by auto|].
  destruct (decide (field container_str m (py "title") = [])) as [Ht|Ht];
    [by rewrite entry_place_skipped in H by auto|].
  destruct (decide (field container_str m (py "query") = [])) as [Hq|Hq];
    [by rewrite entry_place_skipped in H by auto|].
  rewrite entry_place_kept in H by done.
  destruct (py_iter _) as [elems|e]; simpl in H; [|done].
  injection H as <-. repeat split; try done. by exists elems.
Qed.

Lemma field_null container_str m name :
  dict_get m name = Some (YScalar SNone) → field container_str m name = py "None".
Proof. intros H. unfold field. by rewrite H. Qed.

Lemma field_missing container_str m name :
  dict_get m name = None → field container_str m name = [].
Proof. intros H. unfold field. by rewrite H. Qed.

(** X5. A field that the configuration writes [null] is read as the text
    [None], not as a missing field: it does not make the entry skipped, and
    the kept place carries [None] as its key, title or query, and as its
    link when the field is [url]. A [url] that is missing leaves the place
    without link. *)
Theorem null_field_is_read_as_text
    (container_str : yaml → pystr) (m : list (scalar * yaml)) (p : Place) :
  entry_place container_str (YMap m) = Ok (Some p) →
  (dict_get m (py "key") = Some (YScalar SNone) → key p = py "None")
  ∧ (dict_get m (py "title") = Some (YScalar SNone) → title p = py "None")
  ∧ (dict_get m (py "query") = Some (YScalar SNone) → query p = py "None")
  ∧ (dict_get m (py "url") = Some (YScalar SNone) → url p = Some (py "None"))
  ∧ (dict_get m (py "url") = None → url p = None).
Proof.
  intros (_ & _ & _ & elems & _ & ->)%entry_place_Some_inv. simpl.
  repeat split; intros H.
  - by apply field_null.
  - by apply field_null.
  - by apply field_null.
  - by rewrite (field_null _ _ _ H).
  - by rewrite (field_missing _ _ _ H).
Qed.

Lemma null_field_is_read_as_text_witness :
  entry_place plain
    (ymap [ ("key", ystr "num_main"); ("title", YScalar SNone);
            ("query", ystr "NUM"); ("url", YScalar SNone) ])
  = Ok (Some {| key := py "num_main"; title := py "None"; query := py "NUM";
                aliases := []; url := Some (py "None") |}).
Proof.
  destruct (null_field_is_read_as_text plain
              [ (SStr (py "key"), ystr "num_main"); (SStr (py "title"), YScalar SNone);
                (SStr (py "query"), ystr "NUM"); (SStr (py "url"), YScalar SNone) ]
              {| key := py "num_main"; title := py "None"; query := py "NUM";
                 aliases := []; url := Some (py "None") |})
    as (_ & Ht & _ & Hu & _); [by vm_compute|].
  specialize (Ht eq_refl). specialize (Hu eq_refl). by vm_compute.
Defined.





(** ** The alias table after [load] *)




(** The alias or title of a loaded place leads to the key of that place
    as long as no later place is registered under the same string. *)
Lemma resolve_registered container_str file st pre post p a text :
  load container_str file = Ok st →
  _places st = pre ++ p :: post →
  a ∈ aliases p ∨ a = title p →
  same_modulo_case_and_blanks text a →
  (∀ q, q ∈ post → lower a ∉ registered q) →
  resolve st text = _get_by_key st (key p).
Proof.
  intros Hload Hplaces Ha Hvar Hpost.
  assert (Hlp : loaded_place p).
  { destruct (load_store_ok _ _ _ Hload) as [Hpl _ _].
    apply (proj1 (Forall_forall _ _) Hpl). rewrite Hplaces.
    apply elem_of_app. right. apply list_elem_of_here. }
  assert (Hnorm : lower (strip a) = lower a ∧ lower a ∈ registered p ∧ a ≠ []).
  { unfold registered. destruct Ha as [Ha| ->].
    - destruct (proj1 (Forall_forall _ _) (lp_aliases _ Hlp) a Ha) as [Hne Hfix].
      assert (lower a = a) as Hl by (by rewrite <- Hfix at 1; rewrite lower_idem).
      assert (strip a = a) as Hs.
      { rewrite <- Hfix at 1. by rewrite strip_lower, strip_idem. }
      rewrite Hs, Hl. repeat split; [|done]. apply elem_of_app. by left.
    - rewrite (lp_title_stripped _ Hlp). repeat split; [|apply (lp_title _ Hlp)].
      apply elem_of_app. right. apply list_elem_of_here. }
  destruct Hnorm as (Hstrip & Hreg & Hne).
  assert (Hk : _alias_to_key st !! lower a = Some (key p)).
  { destruct (load_Ok _ _ _ Hload) as [->|(doc & items & ps & _ & _ & _ & ->)].
    - by destruct pre.
    - rewrite places_add_places in Hplaces. simpl in Hplaces. subst ps.
      by apply alias_add_places_last. }
  apply resolve_alias.
  - by rewrite (normal_form_variant _ _ Hvar), Hstrip.
  - rewrite (normal_form_variant _ _ Hvar), Hstrip. by intros E%lower_nil_inv.
  - apply (lp_key _ Hlp).
Qed.

(** X8. When two loaded places have the same key, the alias and the title
    of the later one resolve to the earlier one: the alias table leads to
    the key, and the lookup by key stops at the first place that has it. *)
Theorem duplicate_key_resolves_to_first
    (container_str : yaml → pystr) (file : option yaml) (st : LocationStore)
    (pre mid post : list Place) (p1 p2 : Place) (a text : pystr) :
  load container_str file = Ok st →
  _places st = pre ++ p1 :: mid ++ p2 :: post →
  key p2 = key p1 →
  (∀ q, q ∈ pre → key q ≠ key p1) →
  a ∈ aliases p2 ∨ a = title p2 →
  same_modulo_case_and_blanks text a →
  (∀ q, q ∈ post → lower a ∉ registered q) →
  resolve st text = Some p1.
Proof.
  intros Hload Hplaces Hkey Hpre Ha Hvar Hpost.
  rewrite (resolve_registered container_str file st (pre ++ p1 :: mid) post p2 a text);
    try done; [|by rewrite <- app_assoc].
  rewrite Hkey. unfold _get_by_key. rewrite Hplaces. apply find_first.
  - intros q Hq. apply bool_decide_eq_false. by apply Hpre.
  - by apply bool_decide_eq_true.
Qed.

Lemma duplicate_key_resolves_to_first_witness :
  resolve (store_of twins) (py " New LIB ") = Some old_library
  ∧ resolve (store_of twins) (py "new library") = Some old_library.
Proof.
  assert (Hload : load plain (Some twins) = Ok (store_of twins)) by (by vm_compute).
  assert (Hplaces : _places (store_of twins) = [] ++ old_library :: [] ++ new_library :: [])
    by (by vm_compute).
  split.
  - apply (duplicate_key_resolves_to_first plain (Some twins) (store_of twins)
             [] [] [] old_library new_library (py "new lib") (py " New LIB ") Hload Hplaces).
    + reflexivity.
    + intros q Hq. by apply elem_of_nil in Hq.
    + left. apply list_elem_of_here.
    + exists (py " "), (py "New LIB"), (py " ").
      repeat split; by repeat constructor.
    + intros q Hq. by apply elem_of_nil in Hq.
  - apply (duplicate_key_resolves_to_first plain (Some twins) (store_of twins)
             [] [] [] old_library new_library (py "New Library") (py "new library")
             Hload Hplaces).
    + reflexivity.
    + intros q Hq. by apply elem_of_nil in Hq.
    + by right.
    + exists [], (py "new library"), []. repeat split; constructor.
    + intros q Hq. by apply elem_of_nil in Hq.
Defined.

(** ** What [resolve] depends on *)



(** X10. [resolve] never makes a place up: what it returns from a loaded
    store is a place of the place list, with a key, a title and a query
    that are not empty, a title without surrounding white space, and a
    link that is not the empty string. *)
Theorem resolve_returns_a_loaded_place
    (container_str : yaml → pystr) (file : option yaml) (st : LocationStore)
    (text : pystr) (p : Place) :
  load container_str file = Ok st →
  resolve st text = Some p →
  p ∈ _places st
  ∧ key p ≠ [] ∧ title p ≠ [] ∧ query p ≠ []
  ∧ strip (title p) = title p ∧ url p ≠ Some [].
Proof.
  intros Hload Hres. apply resolve_in_places in Hres.
  destruct (load_store_ok _ _ _ Hload) as [Hpl _ _].
  destruct (proj1 (Forall_forall _ _) Hpl p Hres). by repeat split.
Qed.

Lemma resolve_returns_a_loaded_place_witness :
  dorm_4 ∈ _places (store_of dorms) ∧ url dorm_4 ≠ Some [].
Proof.
  destruct (resolve_returns_a_loaded_place plain (Some dorms) (store_of dorms)
              (py "dorm 4") dorm_4) as (Hin & _ & _ & _ & _ & Hu);
    [by vm_compute|by vm_compute|]. by split.
Defined.

(** *** The dormitory branch *)

Lemma dorm_digit_facts d :
  d ∈ dorm_digits → isspace d = false ∧ lower_cp d = d ∧ 0x30 ≤ d ≤ 0x39.
Proof.
  intros H. unfold dorm_digits in H.
  repeat (apply elem_of_cons in H as [->|H]; [by vm_compute|]).
  by apply elem_of_nil in H.
Qed.

Lemma find_Some_first {A} (f : A → bool) l x :
  find f l = Some x →
  ∃ pre post, l = pre ++ x :: post ∧ f x = true ∧ ∀ y, y ∈ pre → f y = false.
Proof.
  induction l as [|y l IH]; simpl; [done|].
  destruct (f y) eqn:E.
  - intros [= <-]. exists [], l. split; [done|]. split; [done|].
    intros z Hz. by apply elem_of_nil in Hz.
  - intros (pre & post & -> & Hx & Hpre)%IH. exists (y :: pre), post.
    split; [done|]. split; [done|].
    intros z [->|Hz]%elem_of_cons; auto.
Qed.

(** In the list of the six digits, the digits before a digit are the
    smaller ones. *)
Lemma dorm_digits_split pre n post m :
  dorm_digits = pre ++ n :: post →
  (m ∈ pre ↔ m ∈ dorm_digits ∧ m < n).
Proof.
  unfold dorm_digits. intros H.
  repeat (destruct pre as [|? pre]; simpl in H;
          [injection H as <- <-|injection H as <- H]);
    try (by destruct pre);
    (split;
     [ intros Hm; repeat (apply elem_of_cons in Hm as [->|Hm]; [by split; [in_list|]|]);
       by apply elem_of_nil in Hm
     | intros [Hm Hlt];
       repeat (apply elem_of_cons in Hm as [->|Hm];
               [first [in_list | by (exfalso; vm_compute in Hlt; discriminate Hlt)]|]);
       by apply elem_of_nil in Hm ]).
Qed.

(** X11. With a dormitory keyword in the text, the branch returns at the
    smallest of the digits 1 to 6 that occurs anywhere in the text, be it
    inside a longer number: the test with the regular expression adds
    nothing to the substring test. Without the keyword, or without any of
    the six digits, the branch does not return. *)
Theorem dorm_match_is_smallest_digit_present (t : pystr) (n : N) :
  dorm_match t = Some n
  ↔ mentions_dorm t = true ∧ n ∈ dorm_digits ∧ n ∈ t
    ∧ ∀ m, m ∈ dorm_digits → m < n → m ∉ t.
Proof.
  unfold dorm_match. split.
  - destruct (mentions_dorm t); [|done].
    intros (pre & post & Hd & Hn & Hpre)%find_Some_first.
    split; [done|]. split.
    { rewrite Hd. apply elem_of_app. right. apply list_elem_of_here. }
    split; [by apply dorm_digit_test_elem|].
    intros m Hm Hlt Hin.
    assert (m ∈ pre) as Hmp by (apply (dorm_digits_split _ _ _ _ Hd); by split).
    apply Hpre in Hmp. apply dorm_digit_test_elem in Hin. congruence.
  - intros (-> & Hn & Hin & Hmin).
    apply list_elem_of_split in Hn as (pre & post & Hd). rewrite Hd.
    apply find_first; [|by apply dorm_digit_test_elem].
    intros m Hm. apply (dorm_digits_split _ _ _ _ Hd) in Hm as [Hm Hlt].
    apply not_true_is_false. intros Ht%dorm_digit_test_elem. by apply (Hmin m).
Qed.

Lemma dorm_match_is_smallest_digit_present_witness :
  dorm_match (py "dorm 14") = Some 0x31.
Proof.
  apply dorm_match_is_smallest_digit_present.
  split; [by vm_compute|]. split; [in_list|]. split; [vm_compute; in_list|].
  intros m Hm Hlt. exfalso.
  unfold dorm_digits in Hm.
  repeat (apply elem_of_cons in Hm as [->|Hm]; [by vm_compute in Hlt|]).
  by apply elem_of_nil in Hm.
Defined.

Lemma lstrip_suffix s : ∃ l, s = l ++ lstrip s.
Proof.
  induction s as [|c s [l IH]]; [by exists []|]. simpl.
  destruct (isspace c); [|by exists []].
  exists (c :: l). simpl. by rewrite <- IH.
Qed.

Lemma strip_infix s : ∃ l r, s = l ++ strip s ++ r.
Proof.
  unfold strip, rstrip.
  destruct (lstrip_suffix s) as [l Hl].
  destruct (lstrip_suffix (rev (lstrip s))) as [r Hr].
  exists l, (rev r).
  rewrite <- rev_app_distr, <- Hr, rev_involutive. exact Hl.
Qed.

Lemma contains_strip_inv p s : contains p (strip s) = true → contains p s = true.
Proof.
  intros (a & b & H)%contains_spec. apply contains_spec.
  destruct (strip_infix s) as (l & r & Hs). rewrite H in Hs.
  exists (l ++ a), (b ++ r). rewrite Hs. by rewrite <- !app_assoc.
Qed.

(** Stripping neither adds nor removes an occurrence of a word without
    white space. *)
Lemma contains_strip_eq p s :
  Forall (λ c, isspace c = false) p → contains p (strip s) = contains p s.
Proof.
  intros Hp. apply eq_true_iff_eq. split.
  - apply contains_strip_inv.
  - by apply contains_strip.
Qed.

Lemma contains_normal_form p text :
  Forall (λ c, isspace c = false) p →
  contains p (lower (strip text)) = contains p (lower text).
Proof. intros Hp. by rewrite <- strip_lower, contains_strip_eq. Qed.

Lemma get_by_key_None st k :
  (∀ p, p ∈ _places st → key p ≠ k) → _get_by_key st k = None.
Proof.
  intros H. unfold _get_by_key. apply find_no_match.
  intros p Hp. apply bool_decide_eq_false. by apply H.
Qed.

Lemma dorm_match_of_text text d :
  contains (py "dorm") (lower text) = true →
  d ∈ dorm_digits → d ∈ text →
  (∀ m, m ∈ dorm_digits → m < d → m ∉ text) →
  dorm_match (lower (strip text)) = Some d.
Proof.
  intros Hkw Hd Hin Hmin. unfold dorm_match.
  rewrite mentions_dorm_lower, contains_normal_form by (by repeat constructor).
  rewrite Hkw.
  destruct (dorm_digit_facts d Hd) as (Hsp & Hlow & _).
  apply list_elem_of_split in Hd as (pre & post & Hsplit). rewrite Hsplit.
  apply find_first.
  - intros m Hm. apply (dorm_digits_split _ _ _ _ Hsplit) in Hm as [Hm Hlt].
    apply not_true_is_false. intros Ht%dorm_digit_test_elem. revert Ht.
    destruct (dorm_digit_facts m Hm) as (_ & _ & Hrange).
    apply digit_absent; [done|]. by apply Hmin.
  - apply dorm_digit_test_elem. by apply nonspace_present.
Qed.

(** X12. When the text holds [dorm] (in any letter case) and its normal
    form is not an alias, the answer is the lookup of [num_dorm_<d>] for
    the smallest digit [d] from 1 to 6 in the text, and nothing else: with
    no place of that key loaded [resolve] returns none, without trying the
    building pattern or the institution keywords. *)
Theorem dorm_branch_decides (st : LocationStore) (text : pystr) (d : N) :
  contains (py "dorm") (lower text) = true →
  d ∈ dorm_digits → d ∈ text →
  (∀ m, m ∈ dorm_digits → m < d → m ∉ text) →
  _alias_to_key st !! lower (strip text) = None →
  resolve st text = _get_by_key st (py "num_dorm_" ++ [d])
  ∧ ((∀ p, p ∈ _places st → key p ≠ py "num_dorm_" ++ [d]) →
     resolve st text = None).
Proof.
  intros Hkw Hd Hin Hmin Halias.
  assert (Hres : resolve st text = _get_by_key st (py "num_dorm_" ++ [d])).
  { rewrite resolve_patterns; [|intros E|done].
    - by rewrite (dorm_match_of_text text d).
    - destruct (dorm_digit_facts d Hd) as (Hsp & Hlow & _).
      assert (Hp : d ∈ lower (strip text)) by (by apply nonspace_present).
      rewrite E in Hp. by apply elem_of_nil in Hp. }
  split; [done|]. intros Hnone. rewrite Hres. by apply get_by_key_None.
Qed.

Lemma dorm_branch_decides_witness :
  resolve (store_of campus) (py "NUM dorm 3") = None
  ∧ resolve (store_of campus) (py "NUM") = _get_by_key (store_of campus) (py "num_main").
Proof.
  split; [|by vm_compute].
  apply (dorm_branch_decides (store_of campus) (py "NUM dorm 3") 0x33).
  - by vm_compute.
  - in_list.
  - vm_compute. in_list.
  - intros m Hm Hlt. unfold dorm_digits in Hm.
    repeat (apply elem_of_cons in Hm as [->|Hm];
            [try (by vm_compute in Hlt); vm_compute; intros H;
             repeat (apply elem_of_cons in H as [H|H]; [discriminate H|]);
             by apply elem_of_nil in H
            |]).
    by apply elem_of_nil in Hm.
  - by vm_compute.
  - intros p Hp. apply list_elem_of_In in Hp. vm_compute in Hp.
    destruct Hp as [<-|[<-|[]]]; by vm_compute.
Defined.

(** *** Without a dormitory keyword *)

Lemma mentions_institution_lower s :
  mentions_institution (lower s)
  = contains (py "muis") (lower s) || contains (py "num") (lower s).
Proof. unfold mentions_institution. by rewrite institution_keyword_never. Qed.

Lemma dorm_match_without_keyword text :
  contains (py "dorm") (lower text) = false →
  dorm_match (lower (strip text)) = None.
Proof.
  intros H. unfold dorm_match.
  by rewrite mentions_dorm_lower, contains_normal_form, H by (by repeat constructor).
Qed.

Lemma contains_nil_false p : p ≠ [] → contains p [] = false.
Proof. by destruct p. Qed.

(** X13. For a text without [dorm] whose normal form is not an alias,
    only the institution branch is left: the answer is the lookup of
    [num_main] when the text holds [muis] or [num] in any letter case
    (also inside a longer word), and none otherwise. *)
Theorem resolve_without_dorm_keyword (st : LocationStore) (text : pystr) :
  _alias_to_key st !! lower (strip text) = None →
  contains (py "dorm") (lower text) = false →
  resolve st text
  = if contains (py "muis") (lower text) || contains (py "num") (lower text)
    then _get_by_key st (py "num_main") else None.
Proof.
  intros Halias Hdorm.
  rewrite <- (contains_normal_form (py "muis") text) by (by repeat constructor).
  rewrite <- (contains_normal_form (py "num") text) by (by repeat constructor).
  destruct (decide (lower (strip text) = [])) as [E|Hne].
  - unfold resolve. by rewrite E.
  - rewrite (resolve_patterns _ _ Hne Halias).
    rewrite (dorm_match_without_keyword _ Hdorm), building_match_never.
    by rewrite mentions_institution_lower.
Qed.

Lemma resolve_without_dorm_keyword_witness :
  resolve (store_of campus) (py "Where is the NUMber one campus?")
  = _get_by_key (store_of campus) (py "num_main")
  ∧ resolve (store_of campus) (py "2-р байр") = None.
Proof.
  split.
  - rewrite (resolve_without_dorm_keyword (store_of campus)
               (py "Where is the NUMber one campus?")); by vm_compute.
  - rewrite (resolve_without_dorm_keyword (store_of campus) (py "2-р байр"));
      by vm_compute.
Defined.

Lemma contains_letter p c text :
  c ∈ p → contains p (lower text) = true → ∃ c', c' ∈ text ∧ lower_cp c' = c.
Proof.
  intros Hc H. apply (contains_elem _ _ c) in H; [|done].
  apply elem_of_lower in H as (c' & -> & Hin). eauto.
Qed.

(** X14. A text that holds neither the letter [d] nor the letter [m], in
    either case, and whose normal form is not an alias, resolves to
    nothing: no pattern can match a request written in Cyrillic only. *)
Theorem resolve_needs_latin_keyword (st : LocationStore) (text : pystr) :
  (∀ c, c ∈ text → lower_cp c ≠ 0x64 ∧ lower_cp c ≠ 0x6D) →
  _alias_to_key st !! lower (strip text) = None →
  resolve st text = None.
Proof.
  intros Hletters Halias.
  assert (Hno : ∀ p c, c ∈ p → c = 0x64 ∨ c = 0x6D → contains p (lower text) = false).
  { intros p c Hc Hdm. apply not_true_is_false. intros H.
    destruct (contains_letter p c text Hc H) as (c' & Hin & Hl).
    destruct (Hletters c' Hin) as [H1 H2]. destruct Hdm; congruence. }
  destruct (decide (lower (strip text) = [])) as [E|Hne].
  - unfold resolve. by rewrite E.
  - rewrite (resolve_patterns _ _ Hne Halias).
    rewrite dorm_match_without_keyword by (apply (Hno _ 0x64); [in_list|by left]).
    rewrite building_match_never, mentions_institution_lower.
    rewrite !contains_normal_form by (by repeat constructor).
    rewrite (Hno (py "muis") 0x6D) by (first [in_list | by right]).
    by rewrite (Hno (py "num") 0x6D) by (first [in_list | by right]).
Qed.

Lemma resolve_needs_latin_keyword_witness :
  resolve (store_of campus) (py "4-р дотуур байр") = None.
Proof.
  apply (resolve_needs_latin_keyword (store_of campus) (py "4-р дотуур байр")).
  - intros c Hc. apply list_elem_of_In in Hc. vm_compute in Hc.
    repeat (destruct Hc as [<-|Hc]; [by vm_compute|]). done.
  - by vm_compute.
Defined.

(** *** The building pattern *)

(** X15. The search of the building pattern succeeds exactly on the texts
    that hold, somewhere, a digit from 1 to 5, then an optional dash of the
    class, an optional ordinal ending and the building keyword, with any
    white space between these parts; the digit it reports is a digit from
    1 to 5 of the text. *)
Theorem building_search_succeeds_iff (t : pystr) :
  (is_Some (building_match t)
   ↔ ∃ pre d ws1 dash ws2 ord ws3 post,
       t = pre ++ (d :: ws1 ++ dash ++ ws2 ++ ord ++ ws3 ++ building_keyword) ++ post
       ∧ 0x31 ≤ d ≤ 0x35
       ∧ Forall (λ c, isspace c = true) ws1
       ∧ (dash = [] ∨ ∃ c, dash = [c] ∧ c ∈ 0x2D :: py "‚Äì")
       ∧ Forall (λ c, isspace c = true) ws2
       ∧ ord ∈ [[]; py "—Ä"; py "—Ä" ++ [0x2E]; py "–¥—É–≥–∞–∞—Ä"]
       ∧ Forall (λ c, isspace c = true) ws3)
  ∧ (∀ n, building_match t = Some n → 0x31 ≤ n ≤ 0x35 ∧ n ∈ t).
Proof.
  split; [|intros n Hn; by apply building_match_Some in Hn as (? & ? & _)].
  unfold building_match. split.
  - intros [n Hn].
    destruct (Re.search building_re t) as [[|d s']|] eqn:E; try done.
    apply search_Some in E as (pre & -> & H).
    apply match_prefix_spec in H as (p & q & Hp & H).
    apply building_lang in H
      as (d' & ws1 & dash & ws2 & ord & ws3 & -> & Hd & Hrest).
    exists pre, d', ws1, dash, ws2, ord, ws3, q. by rewrite Hp.
  - intros (pre & d & ws1 & dash & ws2 & ord & ws3 & post & -> & Hshape).
    assert (Hm : Re.match_prefix building_re
                   ((d :: ws1 ++ dash ++ ws2 ++ ord ++ ws3 ++ building_keyword) ++ post)
                 = true).
    { apply match_prefix_spec. eexists _, post. split; [done|].
      apply building_lang. by exists d, ws1, dash, ws2, ord, ws3. }
    destruct (Re.search building_re _) as [[|c s']|] eqn:E.
    + apply search_Some in E as (_ & _ & H). by vm_compute in H.
    + by eexists.
    + exfalso. rewrite search_None in E. by rewrite (E pre _ eq_refl) in Hm.
Qed.

Lemma building_search_succeeds_iff_witness :
  is_Some (building_match (py "see 3 - —Ä. –±–∞–π—Ä now")).
Proof.
  apply (building_search_succeeds_iff (py "see 3 - —Ä. –±–∞–π—Ä now")).
  exists (py "see "), 0x33, (py " "), (py "-"), (py " "), (py "—Ä" ++ [0x2E]),
    (py " "), (py " now").
  split; [by vm_compute|]. split; [by vm_compute|].
  split; [by repeat constructor|]. split; [right; exists 0x2D; split; [done|in_list]|].
  split; [by repeat constructor|]. split; [in_list|by repeat constructor].
Defined.

(** ** The action *)

Lemma join_cons sep x xs :
  join sep (x :: xs) = x ++ concat (map (λ t, sep ++ t) xs).
Proof.
  revert x. induction xs as [|y xs IH]; intros x; simpl.
  - by rewrite app_nil_r.
  - f_equal. rewrite <- app_assoc. f_equal. apply IH.
Qed.

Lemma lowered_is_no_upper_word s w c :
  c ∈ w → cased_upper c = true → lower s ≠ w.
Proof.
  intros Hc Hup E. rewrite <- E in Hc. apply lower_no_upper in Hc. congruence.
Qed.

(** Of the five commands of the set, the lowered text can only be one of
    the two that are in lower case. *)
Lemma list_command_cases s :
  lower s ∈ list_commands ↔ lower s = py "locations" ∨ lower s = py "list".
Proof.
  unfold list_commands. split.
  - intros H.
    apply elem_of_cons in H as [H|H];
      [exfalso; revert H; apply (lowered_is_no_upper_word _ _ 0xC4); [vm_compute; in_list|done]|].
    apply elem_of_cons in H as [H|H];
      [exfalso; revert H; apply (lowered_is_no_upper_word _ _ 0xC4); [vm_compute; in_list|done]|].
    apply elem_of_cons in H as [H|H]; [by left|].
    apply elem_of_cons in H as [H|H]; [by right|].
    apply elem_of_cons in H as [H|H];
      [exfalso; revert H; apply (lowered_is_no_upper_word _ _ 0xC5); [vm_compute; in_list|done]|].
    by apply elem_of_nil in H.
  - intros [->| ->]; in_list.
Qed.

(** X16. [run] takes the candidate text for the list command exactly when
    its normal form is [locations] or [list]; it then answers with the
    titles of the loaded places, one per line after the heading, or with
    the message for an empty list, returns no event and does not resolve
    the text, even when the text is an alias of a place. *)
Theorem run_list_command (st : LocationStore) (tr : Tracker) :
  let normalized := lower (strip (candidate_text tr)) in
  (normalized ∈ list_commands ↔ normalized = py "locations" ∨ normalized = py "list")
  ∧ (normalized = py "locations" ∨ normalized = py "list" →
     run st tr
     = Ok ([match list_titles st with
            | [] => empty_list_message
            | t :: ts =>
                [0xF8FF] ++ py "üìç –ë–∞–π—Ä—à–ª—ã–Ω –∂–∞–≥—Å–∞–∞–ª—Ç:"
                ++ concat (map (λ x, [0x0A] ++ py "- " ++ x) (t :: ts))
            end], [])).
Proof.
  intros normalized. split; [apply list_command_cases|].
  intros H. unfold run. fold normalized.
  rewrite bool_decide_eq_true_2 by (by apply list_command_cases).
  destruct (list_titles st) as [|t ts]; [done|].
  unfold list_message. rewrite join_cons. reflexivity.
Qed.

Lemma run_list_command_witness :
  run (store_of dorms)
      {| slot_place := None; entities := []; message_text := Some (py " LIST ") |}
  = Ok ([ [0xF8FF] ++ py "üìç –ë–∞–π—Ä—à–ª—ã–Ω –∂–∞–≥—Å–∞–∞–ª—Ç:"
          ++ [0x0A] ++ py "- Dormitory 1" ++ [0x0A] ++ py "- Dormitory 4" ], []).
Proof.
  destruct (run_list_command (store_of dorms)
              {| slot_place := None; entities := []; message_text := Some (py " LIST ") |})
    as [_ H].
  rewrite H; [by vm_compute|]. right. by vm_compute.
Defined.



(** X18. The text that [run] works on is the slot [place] whenever the
    slot holds a non-empty string: the entities and the text of the
    message are then not looked at, so two trackers with that same slot get
    the same reply. With an empty slot, only the first entity named
    [place] counts: its value is the text when it is not empty, and
    otherwise the text of the message is, even if a later entity named
    [place] has a value. *)
Theorem candidate_text_priority (st : LocationStore) (tr : Tracker) :
  (∀ s, slot_place tr = Some s → s ≠ [] →
        candidate_text tr = s
        ∧ ∀ tr', slot_place tr' = Some s → run st tr' = run st tr)
  ∧ (given (slot_place tr) = false →
     ∀ pre e post,
       entities tr = pre ++ e :: post →
       (∀ e', e' ∈ pre → entity e' ≠ Some (py "place")) →
       entity e = Some (py "place") →
       candidate_text tr
       = if given (value e) then default [] (value e)
         else default [] (message_text tr))
  ∧ (given (slot_place tr) = false →
     (∀ e, e ∈ entities tr → entity e ≠ Some (py "place")) →
     candidate_text tr = default [] (message_text tr)).
Proof.
  assert (Hslot : ∀ t s, slot_place t = Some s → s ≠ [] → candidate_text t = s).
  { intros t s Hs Hne. unfold candidate_text. rewrite Hs. simpl.
    rewrite (proj2 (nonempty_true _) Hne). simpl.
    by rewrite (proj2 (nonempty_true _) Hne). }
  split; [|split].
  - intros s Hs Hne. split; [by apply Hslot|].
    intros tr' Hs'. unfold run. by rewrite (Hslot tr s), (Hslot tr' s).
  - intros Hg pre e post He Hpre Hent. unfold candidate_text. rewrite Hg, He.
    rewrite (find_first _ pre e post).
    + done.
    + intros e' He'. apply bool_decide_eq_false. by apply Hpre.
    + by apply bool_decide_eq_true.
  - intros Hg Hnone. unfold candidate_text. rewrite Hg.
    rewrite find_no_match; [by rewrite Hg|].
    intros e He. apply bool_decide_eq_false. by apply Hnone.
Qed.

Lemma candidate_text_priority_witness :
  candidate_text
    {| slot_place := Some (py "");
       entities := [ {| entity := Some (py "time"); value := Some (py "now") |};
                     {| entity := Some (py "place"); value := None |};
                     {| entity := Some (py "place"); value := Some (py "dorm 4") |} ];
       message_text := Some (py "where is it") |}
  = py "where is it"
  ∧ candidate_text
      {| slot_place := Some (py "dorm 1");
         entities := [ {| entity := Some (py "place"); value := Some (py "dorm 4") |} ];
         message_text := Some (py "dorm 4 please") |}
    = py "dorm 1".
Proof.
  split.
  - destruct (candidate_text_priority empty_store
      {| slot_place := Some (py "");
         entities := [ {| entity := Some (py "time"); value := Some (py "now") |};
                       {| entity := Some (py "place"); value := None |};
                       {| entity := Some (py "place"); value := Some (py "dorm 4") |} ];
         message_text := Some (py "where is it") |}) as (_ & H & _).
    rewrite (H eq_refl [ {| entity := Some (py "time"); value := Some (py "now") |} ]
               {| entity := Some (py "place"); value := None |}
               [ {| entity := Some (py "place"); value := Some (py "dorm 4") |} ]).
    + reflexivity.
    + reflexivity.
    + intros e' He'. apply list_elem_of_singleton in He' as ->. by vm_compute.
    + reflexivity.
  - destruct (candidate_text_priority empty_store
      {| slot_place := Some (py "dorm 1");
         entities := [ {| entity := Some (py "place"); value := Some (py "dorm 4") |} ];
         message_text := Some (py "dorm 4 please") |}) as (H & _).
    by apply (H (py "dorm 1")).
Defined.


(** ** The link *)

Lemma all_from_spec fuel c P :
  all_from fuel c P = true → ∀ x, c ≤ x → x < c + N.of_nat fuel → P x = true.
Proof.
  revert c. induction fuel as [|fuel IH]; intros c H x Hx1 Hx2; [lia|].
  simpl in H. destruct (P c) eqn:E; [|done].
  destruct (N.eq_dec x c) as [->|Hne]; [done|].
  apply (IH (N.succ c)); [done|lia|lia].
Qed.

Lemma utf8_shape_all c : utf8_shape c = true.
Proof.
  destruct (N.lt_ge_cases c 0x110000) as [Hc|Hc].
  - assert (Hall : all_from (N.to_nat 0x110000) 0 utf8_shape = true) by (by vm_compute).
    apply (all_from_spec _ _ _ Hall); lia.
  - unfold utf8_shape, Utf8.encode_cp.
    rewrite (proj2 (N.ltb_ge c 0x80)) by lia.
    rewrite (proj2 (N.ltb_ge c 0x800)) by lia.
    rewrite (proj2 (N.ltb_ge c 0x10000)) by lia.
    rewrite (proj2 (N.ltb_ge c 0x110000)) by lia.
    by destruct ((0xD800 <=? c) && (c <=? 0xDFFF)).
Qed.

Lemma decode_cons b0 r0 :
  Utf8.decode (b0 :: r0)
  = if b0 <? 0x80 then b0 :: Utf8.decode r0
    else if b0 <? 0xE0 then
      match r0 with
      | b1 :: r1 =>
          N.lor (N.shiftl (N.land b0 0x1F) 6) (N.land b1 0x3F) :: Utf8.decode r1
      | _ => []
      end
    else if b0 <? 0xF0 then
      match r0 with
      | b1 :: b2 :: r2 =>
          N.lor (N.shiftl (N.land b0 0x0F) 12)
            (N.lor (N.shiftl (N.land b1 0x3F) 6) (N.land b2 0x3F))
          :: Utf8.decode r2
      | _ => []
      end
    else
      match r0 with
      | b1 :: b2 :: b3 :: r3 =>
          N.lor (N.shiftl (N.land b0 0x07) 18)
            (N.lor (N.shiftl (N.land b1 0x3F) 12)
               (N.lor (N.shiftl (N.land b2 0x3F) 6) (N.land b3 0x3F)))
          :: Utf8.decode r3
      | _ => []
      end.
Proof. reflexivity. Qed.

Ltac split_andb H :=
  repeat match type of H with
         | _ && _ = true =>
             let H' := fresh H in apply andb_true_iff in H as [H H']
         end.

(** The bytes of a code point are read back as that code point, whatever
    follows them. *)
Lemma decode_encode_cp c bs rest :
  Utf8.encode_cp c = Some bs →
  Utf8.decode (bs ++ rest) = c :: Utf8.decode rest
  ∧ Forall (λ b, b < 256) bs.
Proof.
  intros Hbs. assert (H := utf8_shape_all c). unfold utf8_shape in H.
  rewrite Hbs in H.
  destruct bs as [|b0 [|b1 [|b2 [|b3 [|b4 bs]]]]]; try done.
  - apply andb_true_iff in H as [H0 H1]. apply N.eqb_eq in H1 as <-.
    split.
    + change ([b0] ++ rest) with (b0 :: rest). by rewrite decode_cons, H0.
    + repeat constructor. apply N.ltb_lt in H0. lia.
  - apply andb_true_iff in H as [H Hc]. apply N.eqb_eq in Hc as <-.
    apply andb_true_iff in H as [H Hb1]. apply andb_true_iff in H as [H Hb0].
    apply andb_true_iff in H as [H0 H1]. apply negb_true_iff in H0.
    split.
    + change ([b0; b1] ++ rest) with (b0 :: b1 :: rest).
      by rewrite decode_cons, H0, H1.
    + repeat constructor; by apply N.ltb_lt.
  - apply andb_true_iff in H as [H Hc]. apply N.eqb_eq in Hc as <-.
    apply andb_true_iff in H as [H Hb2]. apply andb_true_iff in H as [H Hb1].
    apply andb_true_iff in H as [H Hb0]. apply andb_true_iff in H as [H H2].
    apply andb_true_iff in H as [H0 H1].
    apply negb_true_iff in H0, H1.
    split.
    + change ([b0; b1; b2] ++ rest) with (b0 :: b1 :: b2 :: rest).
      by rewrite decode_cons, H0, H1, H2.
    + repeat constructor; by apply N.ltb_lt.
  - apply andb_true_iff in H as [H Hc]. apply N.eqb_eq in Hc as <-.
    apply andb_true_iff in H as [H Hb3]. apply andb_true_iff in H as [H Hb2].
    apply andb_true_iff in H as [H Hb1]. apply andb_true_iff in H as [H Hb0].
    apply andb_true_iff in H as [H H2]. apply andb_true_iff in H as [H0 H1].
    apply negb_true_iff in H0, H1, H2.
    split.
    + change ([b0; b1; b2; b3] ++ rest) with (b0 :: b1 :: b2 :: b3 :: rest).
      by rewrite decode_cons, H0, H1, H2.
    + repeat constructor; by apply N.ltb_lt.
Qed.

Lemma decode_encode s bs :
  Utf8.encode s = Some bs → Utf8.decode bs = s ∧ Forall (λ b, b < 256) bs.
Proof.
  revert bs. induction s as [|c s IH]; intros bs; simpl.
  - intros [= <-]. by split.
  - destruct (Utf8.encode_cp c) as [b|] eqn:Ec; [|done].
    destruct (Utf8.encode s) as [b'|] eqn:Es; [|done].
    intros [= <-]. destruct (IH _ eq_refl) as [IH1 IH2].
    destruct (decode_encode_cp c b b' Ec) as [H1 H2].
    split; [by rewrite H1, IH1|by apply Forall_app].
Qed.

Lemma encode_cp_None c :
  Utf8.encode_cp c = None ↔ 0xD800 ≤ c ≤ 0xDFFF ∨ 0x110000 ≤ c.
Proof.
  unfold Utf8.encode_cp.
  destruct (N.ltb_spec c 0x80); [split; [done|lia]|].
  destruct (N.ltb_spec c 0x800); [split; [done|lia]|].
  destruct (N.leb_spec 0xD800 c), (N.leb_spec c 0xDFFF); simpl;
    try (split; [lia|done]);
    (destruct (N.ltb_spec c 0x10000); [split; [done|lia]|]);
    (destruct (N.ltb_spec c 0x110000); [split; [done|lia]|split; [lia|done]]).
Qed.

Lemma encode_None s :
  Utf8.encode s = None ↔ ∃ c, c ∈ s ∧ (0xD800 ≤ c ≤ 0xDFFF ∨ 0x110000 ≤ c).
Proof.
  induction s as [|c s IH]; simpl.
  - split; [done|]. intros (c & Hc & _). by apply elem_of_nil in Hc.
  - destruct (Utf8.encode_cp c) as [b|] eqn:Ec.
    + destruct (Utf8.encode s) as [b'|] eqn:Es.
      * split; [done|]. intros (c' & [->|Hc']%elem_of_cons & H).
        -- apply encode_cp_None in H. congruence.
        -- assert (∃ c0, c0 ∈ s ∧ (0xD800 ≤ c0 ≤ 0xDFFF ∨ 0x110000 ≤ c0)) as H' by eauto.
           by apply IH in H'.
      * split; [|done]. intros _.
        destruct (proj1 IH eq_refl) as (c' & Hc' & H).
        exists c'. split; [by apply list_elem_of_further|done].
    + split; [|done]. intros _. exists c.
      split; [apply list_elem_of_here|by apply encode_cp_None].
Qed.

Lemma unquote_cons c r :
  unquote (c :: r)
  = if c =? 0x25 then
      match r with
      | h :: l :: r' => 16 * hex_value h + hex_value l :: unquote r'
      | _ => []
      end
    else if c =? 0x2B then 0x20 :: unquote r
    else c :: unquote r.
Proof. reflexivity. Qed.

Lemma unquote_quote_byte b rest :
  b < 256 → unquote (quote_byte b ++ rest) = b :: unquote rest.
Proof.
  intros Hb.
  destruct (quote_byte_cases b Hb) as [[Hs ->]|[[-> ->]|(h & l & -> & Hv)]].
  - assert (Hall : forallb (λ b, implb (always_safe b)
                                    (negb (b =? 0x25) && negb (b =? 0x2B)))
                     (map N.of_nat (seq 0 256)) = true) by (by vm_compute).
    assert (H := forallb_below _ _ Hall b Hb). simpl in H. rewrite Hs in H.
    apply andb_true_iff in H as [H1 H2]. apply negb_true_iff in H1, H2.
    change ([b] ++ rest) with (b :: rest). by rewrite unquote_cons, H1, H2.
  - reflexivity.
  - change ([0x25; h; l] ++ rest) with (0x25 :: h :: l :: rest).
    rewrite unquote_cons. simpl. by rewrite Hv.
Qed.

Lemma unquote_quote bs :
  Forall (λ b, b < 256) bs → unquote (concat (map quote_byte bs)) = bs.
Proof.
  induction 1 as [|b bs Hb _ IH]; [done|]. simpl.
  by rewrite unquote_quote_byte, IH.
Qed.

Lemma quote_plus_injective s1 s2 q :
  quote_plus s1 = Ok q → quote_plus s2 = Ok q → s1 = s2.
Proof.
  unfold quote_plus.
  destruct (Utf8.encode s1) as [b1|] eqn:E1; [|done].
  destruct (Utf8.encode s2) as [b2|] eqn:E2; [|done].
  intros [= <-] [= H].
  destruct (decode_encode _ _ E1) as [D1 F1].
  destruct (decode_encode _ _ E2) as [D2 F2].
  apply (f_equal unquote) in H. rewrite !unquote_quote in H by done.
  by rewrite <- D1, <- D2, H.
Qed.

Lemma search_url_Ok q u :
  google_maps_search_url q = Ok u →
  ∃ e, quote_plus q = Ok e ∧ u = py "https://www.google.com/maps?q=" ++ e.
Proof.
  unfold google_maps_search_url.
  destruct (quote_plus q) as [e|]; [|done].
  change (Ok (py "https://www.google.com/maps?q=" ++ e) = Ok u → ∃ e0,
            Ok e = Ok e0 ∧ u = py "https://www.google.com/maps?q=" ++ e0).
  intros [= <-]. eauto.
Qed.

Lemma search_url_Raise q e :
  google_maps_search_url q = Raise e →
  e = UnicodeEncodeError ∧ Utf8.encode q = None.
Proof.
  unfold google_maps_search_url, quote_plus.
  destruct (Utf8.encode q) as [bs|].
  - intros H. cbv [mbind result_bind] in H. discriminate H.
  - intros H. cbv [mbind result_bind] in H. by injection H as <-.
Qed.

(** X20. The search link loses nothing of the query: two different
    queries never get the same link. *)
Theorem search_links_differ (q1 q2 u1 u2 : pystr) :
  google_maps_search_url q1 = Ok u1 →
  google_maps_search_url q2 = Ok u2 →
  q1 ≠ q2 → u1 ≠ u2.
Proof.
  intros H1 H2 Hne Hu.
  apply search_url_Ok in H1 as (e1 & E1 & ->).
  apply search_url_Ok in H2 as (e2 & E2 & ->).
  apply app_inv_head in Hu. subst e2.
  apply Hne. by eapply quote_plus_injective.
Qed.

Lemma search_links_differ_witness :
  ∃ u1 u2,
    google_maps_search_url (py "NUM 2 байр") = Ok u1
    ∧ google_maps_search_url (py "NUM+2+байр") = Ok u2
    ∧ u1 ≠ u2.
Proof.
  exists (py "https://www.google.com/maps?q=NUM+2+%D0%B1%D0%B0%D0%B9%D1%80"),
         (py "https://www.google.com/maps?q=NUM%2B2%2B%D0%B1%D0%B0%D0%B9%D1%80").
  assert (H1 : google_maps_search_url (py "NUM 2 байр")
               = Ok (py "https://www.google.com/maps?q=NUM+2+%D0%B1%D0%B0%D0%B9%D1%80"))
    by (by vm_compute).
  assert (H2 : google_maps_search_url (py "NUM+2+байр")
               = Ok (py "https://www.google.com/maps?q=NUM%2B2%2B%D0%B1%D0%B0%D0%B9%D1%80"))
    by (by vm_compute).
  split; [exact H1|]. split; [exact H2|].
  apply (search_links_differ (py "NUM 2 байр") (py "NUM+2+байр") _ _ H1 H2).
  by vm_compute.
Defined.

Lemma quote_byte_url_chars b :
  b < 256 → Forall (λ c, url_char c = true) (quote_byte b).
Proof.
  intros Hb.
  assert (Hall : forallb (λ b, forallb url_char (quote_byte b))
                   (map N.of_nat (seq 0 256)) = true) by (by vm_compute).
  assert (H := forallb_below _ _ Hall b Hb). simpl in H.
  apply Forall_forall. intros c Hc. rewrite forallb_forall in H.
  apply H. by apply list_elem_of_In.
Qed.

(** X21. The search link is an ASCII text: it starts with
    [https://www.google.com/maps?q=] and holds nothing but letters, digits
    and the characters [_.-~+%:/?=]. Building it fails only with
    [UnicodeEncodeError], and exactly when the query holds a lone
    surrogate (or something that is no code point). *)
Theorem search_link_is_ascii (query : pystr) :
  match google_maps_search_url query with
  | Ok u =>
      (∃ q, u = py "https://www.google.com/maps?q=" ++ q)
      ∧ Forall (λ c, url_char c = true) u
      ∧ ∀ c, c ∈ query → c < 0xD800 ∨ 0xDFFF < c < 0x110000
  | Raise e =>
      e = UnicodeEncodeError
      ∧ ∃ c, c ∈ query ∧ (0xD800 ≤ c ≤ 0xDFFF ∨ 0x110000 ≤ c)
  end.
Proof.
  destruct (google_maps_search_url query) as [u|e] eqn:Hu.
  - apply search_url_Ok in Hu as (q & Hq & ->). unfold quote_plus in Hq.
    destruct (Utf8.encode query) as [bs|] eqn:E; [|done]. injection Hq as <-.
    split; [eauto|]. split.
    + apply Forall_app. split.
      * apply Forall_forall. intros c Hc. apply list_elem_of_In in Hc.
        vm_compute in Hc. repeat (destruct Hc as [<-|Hc]; [by vm_compute|]). done.
      * destruct (decode_encode _ _ E) as [_ Hb]. clear E.
        induction Hb as [|b bs Hb _ IH]; [constructor|].
        change (Forall (λ c, url_char c = true)
                  (quote_byte b ++ concat (map quote_byte bs))).
        apply Forall_app. split; [by apply quote_byte_url_chars|done].
    + intros c Hc.
      destruct (N.lt_ge_cases c 0xD800); [by left|].
      destruct (N.lt_ge_cases 0xDFFF c) as [H1|H1];
        [destruct (N.lt_ge_cases c 0x110000); [right; lia|]|].
      * assert (Utf8.encode query = None) as E'; [|congruence].
        apply encode_None. exists c. split; [done|]. right. lia.
      * assert (Utf8.encode query = None) as E'; [|congruence].
        apply encode_None. exists c. split; [done|]. left. lia.
  - apply search_url_Raise in Hu as [-> E]. split; [done|]. by apply encode_None.
Qed.

Lemma search_link_is_ascii_witness :
  google_maps_search_url (py "МУИС 2-р байр")
  = Ok (py "https://www.google.com/maps?q=%D0%9C%D0%A3%D0%98%D0%A1+2-%D1%80+%D0%B1%D0%B0%D0%B9%D1%80")
  ∧ google_maps_search_url [0x4E; 0xDC00] = Raise UnicodeEncodeError.
Proof.
  split; [reflexivity|].
  assert (H := search_link_is_ascii [0x4E; 0xDC00]).
  destruct (google_maps_search_url [0x4E; 0xDC00]) as [u|e].
  - destruct H as (_ & _ & H). destruct (H 0xDC00) as [H'|H']; [in_list|lia|lia].
  - by destruct H as [-> _].
Defined.

(** X22. [run] answers with the help message, and without event, exactly
    when the candidate text is no list command and [resolve] finds no
    place for it. *)
Theorem run_help_iff_unresolved (st : LocationStore) (tr : Tracker) :
  run st tr = Ok ([help_message], [])
  ↔ (lower (strip (candidate_text tr)) ∉ list_commands)
    ∧ resolve st (candidate_text tr) = None.
Proof.
  pose (first_char := λ r : result (list pystr * list event),
          match r with
          | Ok (m :: _, _) => head m
          | _ => None
          end).
  unfold run. split.
  - destruct (bool_decide (lower (strip (candidate_text tr)) ∈ list_commands)) eqn:Ecmd.
    + destruct (list_titles st) as [|t ts]; intros H;
        apply (f_equal first_char) in H; (by vm_compute in H).
    + apply bool_decide_eq_false in Ecmd.
      destruct (resolve st (candidate_text tr)) as [p|]; [|done].
      assert (Hshape : ∀ r : result pystr,
                 (u ← r; Ok ([location_message (title p) u],
                             [SlotSet (py "place") (title p)]))
                 ≠ Ok ([help_message], [])).
      { intros [u|e] H; cbv [mbind result_bind] in H; [|discriminate H].
        apply (f_equal first_char) in H. by vm_compute in H. }
      intros H. by apply Hshape in H.
  - intros [Hcmd Hres]. by rewrite bool_decide_eq_false_2, Hres.
Qed.

Lemma run_help_iff_unresolved_witness :
  run (store_of campus)
      {| slot_place := None; entities := []; message_text := Some (py "2-р байр") |}
  = Ok ([help_message], []).
Proof.
  apply run_help_iff_unresolved. split; [|by vm_compute].
  vm_compute. intros H.
  repeat (apply elem_of_cons in H as [H|H]; [discriminate H|]).
  by apply elem_of_nil in H.
Defined.
